(** * Calculator samples: a shallow embedding and its verified properties

    The repository ships two calculator programs, [samples/C/calculator.c]
    and [samples/CPlusPlus/calculator.cpp].  Both are embedded below,
    function by function, and the properties stated about them are proved
    (or refuted on a concrete input) over the embedding.

    Modelling conventions.
    - [double] is Rocq's primitive binary64 [float]; [+ - * /], [sqrt] and the
      comparisons are the IEEE-754 operations.
    - [int] and [long long] are [Z] with the two's complement wrap-around of
      the target written out ([wrap]).
    - A C pointer argument is an [option]: [None] is the null pointer,
      [Some v] a pointer to an object whose current content is [v]; the
      function returns the content after the call.  The objects behind
      distinct pointer arguments are distinct.
    - [errno] and the value [time(NULL)] returns are passed explicitly.
    - [math.h]'s [pow] is an interface ([Libm]); [round] is defined exactly. *)

From Stdlib Require Import ZArith Znumtheory Floats Uint63 Lia Bool Ascii String.
From stdpp Require Import base option list sorting countable gmap.

Local Open Scope Z_scope.

(** ** Machine integers *)

(** The value of [z] read as a two's complement integer of [bits] bits. *)
Definition wrap (bits z : Z) : Z :=
  (z + 2 ^ (bits - 1)) mod 2 ^ bits - 2 ^ (bits - 1).

Definition INT_MAX : Z := 2147483647.
Definition INT_MIN : Z := -2147483648.

Definition int_add (x y : Z) : Z := wrap 32 (x + y).
Definition int_mul (x y : Z) : Z := wrap 32 (x * y).
Definition llong_mul (x y : Z) : Z := wrap 64 (x * y).

(** ** Doubles *)

(** Conversion of an integer of magnitude below [2^63] to [double]
    (exact below [2^53], so exact for every [int]). *)
Definition double_of_Z (z : Z) : float :=
  if z <? 0 then (- PrimFloat.of_uint63 (Uint63.of_Z (- z)))%float
  else PrimFloat.of_uint63 (Uint63.of_Z z).

(** [round] of [math.h]: the nearest integer, halfway cases away from zero.
    A finite double is [± m * 2^e]; with [e >= 0] it is an integer already,
    otherwise the integer part of [m / 2^-e] is bumped when the remainder
    reaches one half.  The result is below [2^53], hence representable. *)
Definition round (x : float) : float :=
  match Prim2SF x with
  | S754_finite s m e =>
      if 0 <=? e then x
      else
        let d := 2 ^ (- e) in
        let q := Z.pos m / d in
        let r := Z.pos m mod d in
        let k := if d <=? 2 * r then q + 1 else q in
        let y := PrimFloat.of_uint63 (Uint63.of_Z k) in
        if s then (- y)%float else y
  | _ => x
  end.

(** ** The mathematical library *)

Definition ERANGE : Z := 34.

(** [pow x y] is the value [math.h]'s [pow] returns; [pow_errno x y e] is
    [errno] after the call when it was [e] before it ([pow] stores [ERANGE]
    on a range error and leaves [errno] alone otherwise). *)
Class Libm := {
  pow : float -> float -> float;
  pow_errno : float -> float -> Z -> Z
}.

(** A reference [pow] for the closed examples.  For a finite base
    [± m * 2^e] and an exponent that is a non-negative integer [n] it is the
    correctly rounded power (exact whenever the power is representable, as
    [10^4] and [2^10] are), with [ERANGE] on overflow; no example below calls
    it on any other argument, where it answers NaN. *)
Definition nat_exponent (y : float) : option Z :=
  match Prim2SF y with
  | S754_zero _ => Some 0
  | S754_finite false m e =>
      if 0 <=? e then Some (Z.pos m * 2 ^ e)
      else if Z.pos m mod 2 ^ (- e) =? 0 then Some (Z.pos m / 2 ^ (- e))
      else None
  | _ => None
  end.

Definition pow_ref (x y : float) : float :=
  match nat_exponent y with
  | Some n =>
      if n =? 0 then 1%float
      else match Prim2SF x with
      | S754_finite s m e =>
          let p := Z.pos m ^ n in
          SF2Prim (binary_normalize prec emax
                     (if s && Z.odd n then - p else p) (e * n) false)
      | _ => nan
      end
  | None => nan
  end.

Definition ref_libm : Libm := {|
  pow := pow_ref;
  pow_errno := fun x y e =>
    if is_finite x && is_infinity (pow_ref x y) then ERANGE else e
|}.

(** ** The C program *)

Module C.

Definition MAX_HISTORY : Z := 100.
Definition MAX_NAME_LENGTH : Z := 50.
Definition PRECISION : Z := 4.

Inductive calc_error_t :=
| CALC_SUCCESS
| CALC_ERROR_DIVISION_BY_ZERO
| CALC_ERROR_INVALID_INPUT
| CALC_ERROR_MEMORY_ALLOCATION
| CALC_ERROR_OVERFLOW
| CALC_ERROR_NEGATIVE_ROOT.

Inductive operation_type_t :=
| OP_ADD | OP_SUBTRACT | OP_MULTIPLY | OP_DIVIDE | OP_POWER | OP_SQUARE | OP_SQRT.

#[global] Instance calc_error_eq_dec : EqDecision calc_error_t.
Proof. solve_decision. Defined.

#[global] Instance operation_type_eq_dec : EqDecision operation_type_t.
Proof. solve_decision. Defined.

(** [history_entry_t]; the array [double operands[2]] is the pair of its
    two slots. *)
Record history_entry_t := {
  operation : operation_type_t;
  operands : float * float;
  result : float;
  timestamp : Z
}.

(** [calculator_t]; [name] is the 50-byte buffer, [history] the array of
    [MAX_HISTORY] entries. *)
Record calculator_t := {
  name : list ascii;
  precision : Z;
  history : list history_entry_t;
  history_count : Z;
  enable_history : Z
}.

(** The storage of a [calculator_t] has the array sizes of its type. *)
Definition calculator_wf (c : calculator_t) : Prop :=
  length (name c) = Z.to_nat MAX_NAME_LENGTH /\
  length (history c) = Z.to_nat MAX_HISTORY.

(** What an engine function hands back: its return code, the object behind
    [result] after the call, and [errno]. *)
Record engine_ret := {
  ret_code : calc_error_t;
  ret_result : option float;
  ret_errno : Z
}.

Definition binary_op_func := float -> float -> option float -> Z -> engine_ret.
Definition unary_op_func := float -> option float -> Z -> engine_ret.

Definition round_to_precision `{Libm} (value : float) (precision : Z) : float :=
  let factor := pow 10 (double_of_Z precision) in
  (round (value * factor) / factor)%float.

(** [None] is undefined behaviour: a store in front of the array, which the
    guard does not exclude when [history_count] is negative. *)
Definition add_to_history (calc : calculator_t) (operation : operation_type_t)
    (operand1 operand2 result : float) (now : Z) : option calculator_t :=
  if (enable_history calc =? 0) || (MAX_HISTORY <=? history_count calc) then
    Some calc
  else if history_count calc <? 0 then None
  else
    let entry := {| operation := operation;
                    operands := (operand1, operand2);
                    result := result;
                    timestamp := now |} in
    Some {| name := name calc;
            precision := precision calc;
            history := <[Z.to_nat (history_count calc) := entry]> (history calc);
            history_count := int_add (history_count calc) 1;
            enable_history := enable_history calc |}.

(** The characters of a C string: those in front of its first NUL. *)
Fixpoint c_chars (s : string) : list ascii :=
  match s with
  | EmptyString => []
  | String c s' => if Ascii.eqb c zero then [] else c :: c_chars s'
  end.

(** [strncpy]: the first [n] bytes of [dest] become the characters of [src],
    cut at [n] and padded with NUL. *)
Definition strncpy (dest : list ascii) (src : string) (n : nat) : list ascii :=
  take n (c_chars src ++ replicate n zero) ++ drop n dest.

Definition calculator_init (calc : option calculator_t) (name : option string)
    (precision : Z) : calc_error_t * option calculator_t :=
  match calc, name with
  | Some c, Some s =>
      let buf := strncpy (C.name c) s (Z.to_nat (MAX_NAME_LENGTH - 1)) in
      (CALC_SUCCESS,
       Some {| name := <[Z.to_nat (MAX_NAME_LENGTH - 1) := zero]> buf;
               precision := precision;
               history := history c;
               history_count := 0;
               enable_history := 1 |})
  | _, _ => (CALC_ERROR_INVALID_INPUT, calc)
  end.

Definition calc_add : binary_op_func := fun a b result errno =>
  match result with
  | None => {| ret_code := CALC_ERROR_INVALID_INPUT; ret_result := None; ret_errno := errno |}
  | Some _ => {| ret_code := CALC_SUCCESS; ret_result := Some (a + b)%float; ret_errno := errno |}
  end.

Definition calc_subtract : binary_op_func := fun a b result errno =>
  match result with
  | None => {| ret_code := CALC_ERROR_INVALID_INPUT; ret_result := None; ret_errno := errno |}
  | Some _ => {| ret_code := CALC_SUCCESS; ret_result := Some (a - b)%float; ret_errno := errno |}
  end.

Definition calc_multiply : binary_op_func := fun a b result errno =>
  match result with
  | None => {| ret_code := CALC_ERROR_INVALID_INPUT; ret_result := None; ret_errno := errno |}
  | Some _ => {| ret_code := CALC_SUCCESS; ret_result := Some (a * b)%float; ret_errno := errno |}
  end.

Definition calc_divide : binary_op_func := fun a b result errno =>
  match result with
  | None => {| ret_code := CALC_ERROR_INVALID_INPUT; ret_result := None; ret_errno := errno |}
  | Some r =>
      if (b =? 0)%float then
        {| ret_code := CALC_ERROR_DIVISION_BY_ZERO; ret_result := Some r; ret_errno := errno |}
      else
        {| ret_code := CALC_SUCCESS; ret_result := Some (a / b)%float; ret_errno := errno |}
  end.

Definition calc_power `{Libm} : binary_op_func := fun base exponent result errno =>
  match result with
  | None => {| ret_code := CALC_ERROR_INVALID_INPUT; ret_result := None; ret_errno := errno |}
  | Some _ =>
      let stored := pow base exponent in
      let errno' := pow_errno base exponent errno in
      if errno' =? ERANGE then
        {| ret_code := CALC_ERROR_OVERFLOW; ret_result := Some stored; ret_errno := errno' |}
      else
        {| ret_code := CALC_SUCCESS; ret_result := Some stored; ret_errno := errno' |}
  end.

Definition calc_square : unary_op_func := fun x result errno =>
  match result with
  | None => {| ret_code := CALC_ERROR_INVALID_INPUT; ret_result := None; ret_errno := errno |}
  | Some _ => {| ret_code := CALC_SUCCESS; ret_result := Some (x * x)%float; ret_errno := errno |}
  end.

Definition calc_sqrt : unary_op_func := fun x result errno =>
  match result with
  | None => {| ret_code := CALC_ERROR_INVALID_INPUT; ret_result := None; ret_errno := errno |}
  | Some r =>
      if (x <? 0)%float then
        {| ret_code := CALC_ERROR_NEGATIVE_ROOT; ret_result := Some r; ret_errno := errno |}
      else
        {| ret_code := CALC_SUCCESS; ret_result := Some (PrimFloat.sqrt x); ret_errno := errno |}
  end.

(** What [perform_binary_operation] and [perform_unary_operation] leave
    behind: the return code, the calculator behind [calc], the object behind
    [result], and [errno]. *)
Record perform_ret := {
  p_code : calc_error_t;
  p_calc : option calculator_t;
  p_result : option float;
  p_errno : Z
}.

(** [None] is the undefined behaviour of [add_to_history]. *)
Definition perform_binary_operation `{Libm} (calc : option calculator_t)
    (a b : float) (operation : operation_type_t) (op_func : option binary_op_func)
    (result : option float) (errno now : Z) : option perform_ret :=
  match calc, op_func, result with
  | Some c, Some f, Some r =>
      let ret := f a b (Some r) errno in
      let error := ret_code ret in
      let stored := default r (ret_result ret) in
      if decide (error = CALC_SUCCESS) then
        let rounded := round_to_precision stored (precision c) in
        let errno' := pow_errno 10 (double_of_Z (precision c)) (ret_errno ret) in
        c' ← add_to_history c operation a b rounded now;
        Some {| p_code := error; p_calc := Some c';
                p_result := Some rounded; p_errno := errno' |}
      else
        Some {| p_code := error; p_calc := Some c;
                p_result := Some stored; p_errno := ret_errno ret |}
  | _, _, _ =>
      Some {| p_code := CALC_ERROR_INVALID_INPUT; p_calc := calc;
              p_result := result; p_errno := errno |}
  end.

Definition perform_unary_operation `{Libm} (calc : option calculator_t)
    (a : float) (operation : operation_type_t) (op_func : option unary_op_func)
    (result : option float) (errno now : Z) : option perform_ret :=
  match calc, op_func, result with
  | Some c, Some f, Some r =>
      let ret := f a (Some r) errno in
      let error := ret_code ret in
      let stored := default r (ret_result ret) in
      if decide (error = CALC_SUCCESS) then
        let rounded := round_to_precision stored (precision c) in
        let errno' := pow_errno 10 (double_of_Z (precision c)) (ret_errno ret) in
        c' ← add_to_history c operation a 0 rounded now;
        Some {| p_code := error; p_calc := Some c';
                p_result := Some rounded; p_errno := errno' |}
      else
        Some {| p_code := error; p_calc := Some c;
                p_result := Some stored; p_errno := ret_errno ret |}
  | _, _, _ =>
      Some {| p_code := CALC_ERROR_INVALID_INPUT; p_calc := calc;
              p_result := result; p_errno := errno |}
  end.

(** The summation loop of [calc_average], [todo] iterations from index [i];
    [None] is a read past the end of the array. *)
Fixpoint average_loop (numbers : list float) (todo i : nat) (sum : float)
    : option float :=
  match todo with
  | O => Some sum
  | S todo' =>
      x ← numbers !! i;
      average_loop numbers todo' (S i) (sum + x)%float
  end.

Definition calc_average (numbers : option (list float)) (count : Z)
    (result : option float) (errno : Z) : option engine_ret :=
  match numbers, result with
  | Some ns, Some _ =>
      if count <=? 0 then
        Some {| ret_code := CALC_ERROR_INVALID_INPUT; ret_result := result; ret_errno := errno |}
      else
        sum ← average_loop ns (Z.to_nat count) 0 0%float;
        Some {| ret_code := CALC_SUCCESS;
                ret_result := Some (sum / double_of_Z count)%float;
                ret_errno := errno |}
  | _, _ =>
      Some {| ret_code := CALC_ERROR_INVALID_INPUT; ret_result := result; ret_errno := errno |}
  end.

(** [factorial]: [depth] counts the recursive calls still allowed, and
    [factorial] gives it the [n] calls the recursion makes. *)
Fixpoint factorial_rec (depth : nat) (n : Z) : option Z :=
  match depth with
  | O => None
  | S depth' =>
      if n <? 0 then Some (-1)
      else if n <=? 1 then Some 1
      else r ← factorial_rec depth' (int_add n (-1)); Some (llong_mul n r)
  end.

Definition factorial (n : Z) : option Z := factorial_rec (Z.to_nat n + 1) n.

(** The loop of [is_prime] from [i] on; [fuel] bounds its iterations and
    [None] says the bound was too small. *)
Fixpoint is_prime_loop (fuel : nat) (n i : Z) : option Z :=
  match fuel with
  | O => None
  | S fuel' =>
      if int_mul i i <=? n then
        if (Z.rem n i =? 0) || (Z.rem n (int_add i 2) =? 0) then Some 0
        else is_prime_loop fuel' n (int_add i 6)
      else Some 1
  end.

Definition is_prime (fuel : nat) (n : Z) : option Z :=
  if n <=? 1 then Some 0
  else if n <=? 3 then Some 1
  else if (Z.rem n 2 =? 0) || (Z.rem n 3 =? 0) then Some 0
  else is_prime_loop fuel n 5.

(** The operands [print_history] prints for an entry: the first slot alone
    for the two unary kinds, both slots otherwise. *)
Definition printed_operands (entry : history_entry_t) : list float :=
  match operation entry with
  | OP_SQUARE | OP_SQRT => [fst (operands entry)]
  | _ => [fst (operands entry); snd (operands entry)]
  end.

Definition clear_history (calc : option calculator_t) : option calculator_t :=
  c ← calc;
  Some {| name := name c; precision := precision c; history := history c;
          history_count := 0; enable_history := enable_history c |}.

(** A client store to the [enable_history] field. *)
Definition set_enable_history (c : calculator_t) (v : Z) : calculator_t :=
  {| name := name c; precision := precision c; history := history c;
     history_count := history_count c; enable_history := v |}.

(** A call through either entry point with non-null pointers: the engine
    function handed over and its operands. *)
Inductive op_call :=
| Binary (f : binary_op_func) (a b : float)
| Unary (f : unary_op_func) (a : float).

(** The engine function of a call, run directly on [result]. *)
Definition engine_call (k : op_call) (r : float) (errno : Z) : engine_ret :=
  match k with
  | Binary f a b => f a b (Some r) errno
  | Unary f a => f a (Some r) errno
  end.

Definition perform `{Libm} (c : calculator_t) (operation : operation_type_t)
    (k : op_call) (r : float) (errno now : Z) : option perform_ret :=
  match k with
  | Binary f a b =>
      perform_binary_operation (Some c) a b operation (Some f) (Some r) errno now
  | Unary f a =>
      perform_unary_operation (Some c) a operation (Some f) (Some r) errno now
  end.

(** The calculators a client can hold: initialised by [calculator_init] in
    storage of the right shape, then driven through the two entry points,
    [clear_history] and stores to [enable_history]. *)
Inductive reachable `{Libm} : calculator_t -> Prop :=
| reach_init c0 s p c :
    calculator_wf c0 ->
    calculator_init (Some c0) (Some s) p = (CALC_SUCCESS, Some c) ->
    reachable c
| reach_perform c operation k r errno now ret c' :
    reachable c ->
    perform c operation k r errno now = Some ret ->
    p_calc ret = Some c' ->
    reachable c'
| reach_clear c c' :
    reachable c -> clear_history (Some c) = Some c' -> reachable c'
| reach_enable c v :
    reachable c -> reachable (set_enable_history c v).

(** The calculator after a list of calls, each with its operation kind,
    [result] content and clock reading; [None] as soon as one is undefined. *)
Fixpoint run `{Libm} (c : calculator_t)
    (calls : list (operation_type_t * op_call * float * Z)) (errno : Z)
    : option (calculator_t * Z) :=
  match calls with
  | [] => Some (c, errno)
  | (operation, k, r, now) :: rest =>
      ret ← perform c operation k r errno now;
      c' ← p_calc ret;
      run c' rest (p_errno ret)
  end.

(** [get_operation_name]; every value of the enumeration has its own case,
    so the [default] answer is never given. *)
Definition get_operation_name (operation : operation_type_t) : string :=
  match operation with
  | OP_ADD => "Addition"
  | OP_SUBTRACT => "Subtraction"
  | OP_MULTIPLY => "Multiplication"
  | OP_DIVIDE => "Division"
  | OP_POWER => "Power"
  | OP_SQUARE => "Square"
  | OP_SQRT => "Square Root"
  end.

Definition get_error_message (error : calc_error_t) : string :=
  match error with
  | CALC_SUCCESS => "Success"
  | CALC_ERROR_DIVISION_BY_ZERO => "Division by zero"
  | CALC_ERROR_INVALID_INPUT => "Invalid input"
  | CALC_ERROR_MEMORY_ALLOCATION => "Memory allocation failed"
  | CALC_ERROR_OVERFLOW => "Numeric overflow"
  | CALC_ERROR_NEGATIVE_ROOT => "Cannot calculate square root of negative number"
  end.

(** The string a [%s] conversion reads from a buffer, as [main] does with
    [calc.name]: the bytes in front of the first NUL. *)
Fixpoint buffer_chars (buf : list ascii) : list ascii :=
  match buf with
  | [] => []
  | c :: rest => if Ascii.eqb c zero then [] else c :: buffer_chars rest
  end.

(** The two operands an entry point hands to [add_to_history] for a call. *)
Definition call_operands (k : op_call) : float * float :=
  match k with
  | Binary _ a b => (a, b)
  | Unary _ a => (a, 0%float)
  end.

(** The value a successful call stores behind [result]. *)
Definition rounded_result `{Libm} (c : calculator_t) (k : op_call) (r : float)
    (errno : Z) : float :=
  round_to_precision (default r (ret_result (engine_call k r errno)))
    (precision c).

(** The array [operands] of an entry, read in index order. *)
Definition operand_slots (entry : history_entry_t) : list float :=
  [fst (operands entry); snd (operands entry)].

(** Storage for the examples: a zero-filled [calculator_t], and the
    calculator [main] initialises in it. *)
Definition blank_entry : history_entry_t :=
  {| operation := OP_ADD; operands := (0%float, 0%float); result := 0%float;
     timestamp := 0 |}.

Definition blank_calc : calculator_t :=
  {| name := replicate (Z.to_nat MAX_NAME_LENGTH) zero;
     precision := 0;
     history := replicate (Z.to_nat MAX_HISTORY) blank_entry;
     history_count := 0;
     enable_history := 0 |}.

Definition demo_calc : calculator_t :=
  {| name := c_chars "C Calculator" ++ replicate 38 zero;
     precision := PRECISION;
     history := replicate (Z.to_nat MAX_HISTORY) blank_entry;
     history_count := 0;
     enable_history := 1 |}.

End C.

(** ** The C++ program, at [T = double] *)

Module Cpp.

Inductive OperationType :=
| ADD | SUBTRACT | MULTIPLY | DIVIDE | POWER | SQUARE | SQRT | AVERAGE.

(** A call returns or throws a [CalculatorException] with this [what()]. *)
Inductive outcome (A : Type) :=
| Return (a : A)
| Throw (what : string).
Arguments Return {A} a.
Arguments Throw {A} what.

Definition CalculatorException {A} (message : string) : outcome A :=
  Throw ("Calculator Error: " ++ message)%string.

Record HistoryEntry := {
  operation_ : OperationType;
  operands_ : list float;
  result_ : float;
  timestamp_ : Z
}.

Record CalculatorBase := {
  name_ : string;
  precision_ : Z;
  history_ : list HistoryEntry;
  enable_history_ : bool
}.

(** The constructor [AdvancedCalculator(name, precision)]. *)
Definition AdvancedCalculator (name : string) (precision : Z) : CalculatorBase :=
  {| name_ := name; precision_ := precision; history_ := [];
     enable_history_ := true |}.

Definition clearHistory (this : CalculatorBase) : CalculatorBase :=
  {| name_ := name_ this; precision_ := precision_ this; history_ := [];
     enable_history_ := enable_history_ this |}.

Definition setHistoryEnabled (this : CalculatorBase) (enabled : bool)
    : CalculatorBase :=
  {| name_ := name_ this; precision_ := precision_ this;
     history_ := history_ this; enable_history_ := enabled |}.

(** [now] is the reading of [system_clock::now()]. *)
Definition addToHistory (this : CalculatorBase) (op : OperationType)
    (operands : list float) (result : float) (now : Z) : CalculatorBase :=
  if enable_history_ this then
    {| name_ := name_ this; precision_ := precision_ this;
       history_ := history_ this ++
         [{| operation_ := op; operands_ := operands; result_ := result;
             timestamp_ := now |}];
       enable_history_ := enable_history_ this |}
  else this.

Definition roundToPrecision `{Libm} (this : CalculatorBase) (value : float)
    : float :=
  let factor := pow 10 (double_of_Z (precision_ this)) in
  (round (value * factor) / factor)%float.

Definition add `{Libm} (this : CalculatorBase) (a b : float) (now : Z)
    : float * CalculatorBase :=
  let result := roundToPrecision this (a + b)%float in
  (result, addToHistory this ADD [a; b] result now).

Definition subtract `{Libm} (this : CalculatorBase) (a b : float) (now : Z)
    : float * CalculatorBase :=
  let result := roundToPrecision this (a - b)%float in
  (result, addToHistory this SUBTRACT [a; b] result now).

Definition multiply `{Libm} (this : CalculatorBase) (a b : float) (now : Z)
    : float * CalculatorBase :=
  let result := roundToPrecision this (a * b)%float in
  (result, addToHistory this MULTIPLY [a; b] result now).

Definition divide `{Libm} (this : CalculatorBase) (a b : float) (now : Z)
    : outcome (float * CalculatorBase) :=
  if (b =? 0)%float then CalculatorException "Division by zero"
  else
    let result := roundToPrecision this (a / b)%float in
    Return (result, addToHistory this DIVIDE [a; b] result now).

Definition square `{Libm} (this : CalculatorBase) (x : float) (now : Z)
    : float * CalculatorBase :=
  let result := roundToPrecision this (x * x)%float in
  (result, addToHistory this SQUARE [x] result now).

Definition power `{Libm} (this : CalculatorBase) (base exponent : float)
    (now : Z) : float * CalculatorBase :=
  let result := roundToPrecision this (pow base exponent) in
  (result, addToHistory this POWER [base; exponent] result now).

Definition sqrt `{Libm} (this : CalculatorBase) (x : float) (now : Z)
    : outcome (float * CalculatorBase) :=
  if (x <? 0)%float then
    CalculatorException "Cannot calculate square root of negative number"
  else
    let result := roundToPrecision this (PrimFloat.sqrt x) in
    Return (result, addToHistory this SQRT [x] result now).

(** [MathUtils::factorial<T>] for a signed integer type [T] of [bits] bits;
    [depth] counts the recursive calls still allowed ([None] when used up). *)
Fixpoint factorial_rec (bits : Z) (depth : nat) (n : Z) : option (outcome Z) :=
  match depth with
  | O => None
  | S depth' =>
      if n <? 0 then
        Some (CalculatorException
                "Factorial is only defined for non-negative numbers")
      else if n <=? 1 then Some (Return 1)
      else
        r ← factorial_rec bits depth' (wrap bits (n - 1));
        Some match r with
             | Return v => Return (wrap bits (n * v))
             | Throw what => Throw what
             end
  end.

Definition factorial (bits : Z) (n : Z) : option (outcome Z) :=
  factorial_rec bits (Z.to_nat n + 1) n.

Fixpoint isPrime_loop (fuel : nat) (n i : Z) : option bool :=
  match fuel with
  | O => None
  | S fuel' =>
      if int_mul i i <=? n then
        if (Z.rem n i =? 0) || (Z.rem n (int_add i 2) =? 0) then Some false
        else isPrime_loop fuel' n (int_add i 6)
      else Some true
  end.

Definition isPrime (fuel : nat) (n : Z) : option bool :=
  if n <=? 1 then Some false
  else if n <=? 3 then Some true
  else if (Z.rem n 2 =? 0) || (Z.rem n 3 =? 0) then Some false
  else isPrime_loop fuel n 5.

(** [HistoryEntry::getOperationName]: the lookup in the static name table,
    which has a row for every kind. *)
Definition getOperationName (op : OperationType) : string :=
  match op with
  | ADD => "Addition"
  | SUBTRACT => "Subtraction"
  | MULTIPLY => "Multiplication"
  | DIVIDE => "Division"
  | POWER => "Power"
  | SQUARE => "Square"
  | SQRT => "Square Root"
  | AVERAGE => "Average"
  end.


(** [AdvancedCalculator::operator()]. *)
Definition call_operator `{Libm} (this : CalculatorBase) (a b : float)
    (op : OperationType) (now : Z) : outcome (float * CalculatorBase) :=
  match op with
  | ADD => Return (add this a b now)
  | SUBTRACT => Return (subtract this a b now)
  | MULTIPLY => Return (multiply this a b now)
  | DIVIDE => divide this a b now
  | POWER => Return (power this a b now)
  | _ => CalculatorException "Invalid binary operation"
  end.

#[global] Instance OperationType_eq_dec : EqDecision OperationType.
Proof. solve_decision. Defined.

#[global] Instance OperationType_countable : Countable OperationType.
Proof.
  refine (inj_countable'
            (fun op => match op with
                       | ADD => 0 | SUBTRACT => 1 | MULTIPLY => 2 | DIVIDE => 3
                       | POWER => 4 | SQUARE => 5 | SQRT => 6 | AVERAGE => 7
                       end%nat)
            (fun n => match n with
                      | 0 => ADD | 1 => SUBTRACT | 2 => MULTIPLY | 3 => DIVIDE
                      | 4 => POWER | 5 => SQUARE | 6 => SQRT | _ => AVERAGE
                      end%nat) _).
  intros []; reflexivity.
Defined.

(** [getHistorySummary]: [summary[op]++] for every entry, in order; the
    subscript creates a missing counter at 0 before the increment. *)
Definition getHistorySummary (this : CalculatorBase) : gmap OperationType Z :=
  fold_left
    (fun summary entry =>
       <[operation_ entry :=
           int_add (default 0 (summary !! operation_ entry)) 1]> summary)
    (history_ this) ∅.

(** [std::abs] on [int]. *)
Definition int_abs (x : Z) : Z := wrap 32 (Z.abs x).

(** The loop of [IntegerCalculator::gcd]; [fuel] bounds the iterations
    still allowed and [None] says the bound was too small. *)
Fixpoint gcd_loop (fuel : nat) (a b : Z) : option Z :=
  if b =? 0 then Some a
  else match fuel with
       | O => None
       | S fuel' => gcd_loop fuel' b (Z.rem a b)
       end.

Definition gcd (fuel : nat) (a b : Z) : option Z :=
  gcd_loop fuel (int_abs a) (int_abs b).


(** The [for] loop of [MathUtils::fibonacciSequence] with [todo] iterations
    left at index [i]; [None] is a subscript outside the vector. *)
Fixpoint fibonacci_loop (todo i : nat) (sequence : list Z) : option (list Z) :=
  match todo with
  | O => Some sequence
  | S todo' =>
      x ← sequence !! (i - 1)%nat;
      y ← sequence !! (i - 2)%nat;
      fibonacci_loop todo' (S i) (sequence ++ [int_add x y])
  end.

Definition fibonacciSequence (length : Z) : option (list Z) :=
  if length <=? 0 then Some []
  else
    let sequence := if 1 <=? length then [0] else [] in
    let sequence := if 2 <=? length then sequence ++ [1] else sequence in
    fibonacci_loop (Z.to_nat (length - 2)) 2 sequence.

(** [MathUtils::median] on a container of [int]; [std::sort] leaves the
    elements in ascending order, which for integers is one list only, the
    one [merge_sort] computes. *)
Definition median (container : list Z) : outcome Z :=
  match container with
  | [] => CalculatorException "Cannot calculate median of empty container"
  | _ :: _ =>
      let sorted := merge_sort Z.le container in
      let size := length sorted in
      if (size mod 2 =? 0)%nat then
        Return (Z.quot (int_add (sorted !!! (size / 2 - 1)%nat)
                                (sorted !!! (size / 2)%nat)) 2)
      else Return (sorted !!! (size / 2)%nat)
  end.

(** The C++ kind that carries the name of a C kind. *)
Definition kind_of_c (operation : C.operation_type_t) : OperationType :=
  match operation with
  | C.OP_ADD => ADD
  | C.OP_SUBTRACT => SUBTRACT
  | C.OP_MULTIPLY => MULTIPLY
  | C.OP_DIVIDE => DIVIDE
  | C.OP_POWER => POWER
  | C.OP_SQUARE => SQUARE
  | C.OP_SQRT => SQRT
  end.

(** How many entries of a history are of kind [op]. *)
Definition count_kind (op : OperationType) (entries : list HistoryEntry) : nat :=
  length (filter (fun entry => operation_ entry = op) entries).

(** The calculators a client can hold: constructed, then driven through the
    public member functions. *)
Inductive reachable `{Libm} : CalculatorBase -> Prop :=
| reach_new name precision : reachable (AdvancedCalculator name precision)
| reach_add c a b now : reachable c -> reachable (add c a b now).2
| reach_subtract c a b now : reachable c -> reachable (subtract c a b now).2
| reach_multiply c a b now : reachable c -> reachable (multiply c a b now).2
| reach_divide c a b now r c' :
    reachable c -> divide c a b now = Return (r, c') -> reachable c'
| reach_square c x now : reachable c -> reachable (square c x now).2
| reach_power c a b now : reachable c -> reachable (power c a b now).2
| reach_sqrt c x now r c' :
    reachable c -> sqrt c x now = Return (r, c') -> reachable c'
| reach_clear c : reachable c -> reachable (clearHistory c)
| reach_enable c v : reachable c -> reachable (setHistoryEnabled c v).

(** A client that calls [add(1.0, 2.0)] [n] times in a row. *)
Fixpoint add_repeatedly `{Libm} (n : nat) (this : CalculatorBase)
    : CalculatorBase :=
  match n with
  | O => this
  | S n' => (add (add_repeatedly n' this) 1 2 1000).2
  end.

End Cpp.

(** ** Ground truth for the integer utilities *)

(** The product [k * (k - 1) * ... * 1] over the integers. *)
Fixpoint product_down_to_one (k : nat) : Z :=
  match k with
  | O => 1
  | S k' => Z.of_nat k * product_down_to_one k'
  end.

(** Trial division over the integers, without machine arithmetic: after 2
    and 3, the candidates [i] and [i + 2] for [i = 5, 11, 17, ...] while
    [i * i <= n]. *)
Fixpoint trial_loop (fuel : nat) (n i : Z) : option bool :=
  match fuel with
  | O => None
  | S fuel' =>
      if i * i <=? n then
        if (Z.rem n i =? 0) || (Z.rem n (i + 2) =? 0) then Some false
        else trial_loop fuel' n (i + 6)
      else Some true
  end.

Definition trial_division (fuel : nat) (n : Z) : option bool :=
  if n <=? 1 then Some false
  else if n <=? 3 then Some true
  else if (Z.rem n 2 =? 0) || (Z.rem n 3 =? 0) then Some false
  else trial_loop fuel n 5.

(** The Fibonacci numbers over the integers, [0, 1, 1, 2, ...]. *)
Fixpoint fibonacci_pair (n : nat) : Z * Z :=
  match n with
  | O => (0, 1)
  | S n' => let '(a, b) := fibonacci_pair n' in (b, a + b)
  end.

Definition fibonacci (n : nat) : Z := (fibonacci_pair n).1.

(** The [int] a C truth value is. *)
Definition int_of_bool (b : bool) : Z := if b then 1 else 0.

(** The largest candidate of the form [6k + 5] whose square fits an [int]. *)
Definition LAST_CANDIDATE : Z := 46337.

(** * Machine integers without overflow *)

Lemma wrap_id bits z :
  0 < bits -> - 2 ^ (bits - 1) <= z < 2 ^ (bits - 1) -> wrap bits z = z.
Proof.
  intros Hbits Hz. unfold wrap.
  assert (Hpow : 2 ^ bits = 2 * 2 ^ (bits - 1)).
  { rewrite <- Z.pow_succ_r by lia. f_equal. lia. }
  rewrite Z.mod_small by lia. lia.
Qed.

Lemma int_add_id x y : INT_MIN <= x + y <= INT_MAX -> int_add x y = x + y.
Proof.
  unfold INT_MIN, INT_MAX, int_add. intros Hr. apply wrap_id; [lia |].
  change (2 ^ (32 - 1)) with 2147483648. lia.
Qed.

Lemma int_mul_id x y : INT_MIN <= x * y <= INT_MAX -> int_mul x y = x * y.
Proof.
  unfold INT_MIN, INT_MAX, int_mul. intros Hr. apply wrap_id; [lia |].
  change (2 ^ (32 - 1)) with 2147483648. lia.
Qed.

Lemma wrap_mul_r bits x y : wrap bits (x * wrap bits y) = wrap bits (x * y).
Proof.
  unfold wrap. f_equal.
  set (h := 2 ^ (bits - 1)). set (M := 2 ^ bits).
  destruct (Z.eq_dec M 0) as [HM | HM].
  - rewrite HM, !Z.mod_0_r. lia.
  - rewrite (Z.mod_eq (y + h) M) by exact HM.
    replace (x * (y + h - M * ((y + h) / M) - h) + h)
      with (x * y + h + (- x * ((y + h) / M)) * M) by ring.
    apply Z_mod_plus_full.
Qed.

Lemma product_down_to_one_succ n :
  1 <= n ->
  product_down_to_one (Z.to_nat n)
  = n * product_down_to_one (Z.to_nat (n - 1)).
Proof.
  intros Hn. replace (Z.to_nat n) with (S (Z.to_nat (n - 1))) by lia.
  cbn [product_down_to_one]. f_equal. lia.
Qed.

Lemma product_down_to_one_small k :
  (k <= 20)%nat -> wrap 64 (product_down_to_one k) = product_down_to_one k.
Proof.
  intros Hk. do 21 (destruct k as [| k]; [reflexivity |]). lia.
Qed.

Lemma wrap_add bits x y :
  wrap bits (wrap bits x + wrap bits y) = wrap bits (x + y).
Proof.
  unfold wrap. f_equal.
  set (h := 2 ^ (bits - 1)). set (M := 2 ^ bits).
  destruct (Z.eq_dec M 0) as [HM | HM].
  - rewrite HM, !Z.mod_0_r. lia.
  - rewrite (Z.mod_eq (x + h) M), (Z.mod_eq (y + h) M) by exact HM.
    replace (x + h - M * ((x + h) / M) - h + (y + h - M * ((y + h) / M) - h) + h)
      with (x + y + h + (- ((x + h) / M) - (y + h) / M) * M) by ring.
    apply Z_mod_plus_full.
Qed.

Lemma int_abs_id x : INT_MIN < x <= INT_MAX -> Cpp.int_abs x = Z.abs x.
Proof.
  unfold INT_MIN, INT_MAX, Cpp.int_abs. intros Hx. apply wrap_id; [lia |].
  change (2 ^ (32 - 1)) with 2147483648. lia.
Qed.

Lemma fibonacci_step n :
  fibonacci (S (S n)) = fibonacci (S n) + fibonacci n.
Proof.
  unfold fibonacci. cbn [fibonacci_pair].
  destruct (fibonacci_pair n) as [a b]. cbn. lia.
Qed.

(** * Trial division over the integers *)

Lemma proper_divisor_not_prime n d : 1 < d < n -> (d | n) -> ~ Z.prime n.
Proof. intros Hd Hdiv [_ Hp]. exact (Hp d Hd Hdiv). Qed.

Lemma no_small_divisor_prime n :
  1 < n -> (forall d, 2 <= d -> d * d <= n -> ~ (d | n)) -> Z.prime n.
Proof.
  intros Hn Hnone. split; [exact Hn |].
  intros d Hd [q Hq].
  assert (Hq1 : 1 < q) by nia.
  destruct (Z.le_gt_cases d q) as [Hle | Hgt].
  - apply (Hnone d); [lia | nia | exists q; exact Hq].
  - apply (Hnone q); [lia | nia | exists d; lia].
Qed.

Lemma rem_zero_divide n d : d <> 0 -> (Z.rem n d =? 0) = true <-> (d | n).
Proof. intros Hd. rewrite Z.eqb_eq. now apply Z.rem_divide. Qed.

Lemma trial_loop_correct fuel : forall n i,
  3 < n -> 5 <= i -> i mod 6 = 5 ->
  (forall d, 2 <= d < i -> ~ (d | n)) ->
  (1 <= fuel)%nat ->
  n < (i + 6 * (Z.of_nat fuel - 1)) * (i + 6 * (Z.of_nat fuel - 1)) ->
  exists b, trial_loop fuel n i = Some b /\ (b = true <-> Z.prime n).
Proof.
  induction fuel as [| fuel IH]; intros n i Hn Hi Hmod Hinv Hfuel Hbound; [lia |].
  cbn [trial_loop].
  destruct (Z.leb_spec (i * i) n) as [Hsq | Hsq].
  - destruct (Z.rem n i =? 0) eqn:Hri; [| destruct (Z.rem n (i + 2) =? 0) eqn:Hri2]; cbn [orb].
    + exists false. split; [reflexivity |]. split; [discriminate |].
      intros Hp. exfalso. apply rem_zero_divide in Hri; [| lia].
      apply (proper_divisor_not_prime n i); [nia | exact Hri | exact Hp].
    + exists false. split; [reflexivity |]. split; [discriminate |].
      intros Hp. exfalso. apply rem_zero_divide in Hri2; [| lia].
      apply (proper_divisor_not_prime n (i + 2)); [nia | exact Hri2 | exact Hp].
    + assert (Hi6 : i = 6 * (i / 6) + 5).
      { pose proof (Z.div_mod i 6 ltac:(lia)). lia. }
      assert (H2 : ~ (2 | n)) by (apply Hinv; lia).
      assert (H3 : ~ (3 | n)) by (apply Hinv; lia).
      assert (Hfuel' : (1 <= fuel)%nat).
      { destruct fuel; [| lia]. cbn in Hbound. nia. }
      apply IH; [lia | lia | | | exact Hfuel' | ].
      * replace (i + 6) with (i + 1 * 6) by lia. rewrite Z_mod_plus_full. exact Hmod.
      * intros d Hd Hdn.
        assert (Hcases : d < i \/ d = i \/ d = i + 1 \/ d = i + 2 \/ d = i + 3
                         \/ d = i + 4 \/ d = i + 5) by lia.
        destruct Hcases as [? | [-> | [-> | [-> | [-> | [-> | ->]]]]]].
        -- apply (Hinv d); [lia | exact Hdn].
        -- apply rem_zero_divide in Hdn; [congruence | lia].
        -- apply H2. apply Z.divide_trans with (i + 1); [| exact Hdn].
           exists (3 * (i / 6) + 3). lia.
        -- apply rem_zero_divide in Hdn; [congruence | lia].
        -- apply H2. apply Z.divide_trans with (i + 3); [| exact Hdn].
           exists (3 * (i / 6) + 4). lia.
        -- apply H3. apply Z.divide_trans with (i + 4); [| exact Hdn].
           exists (2 * (i / 6) + 3). lia.
        -- apply H2. apply Z.divide_trans with (i + 5); [| exact Hdn].
           exists (3 * (i / 6) + 5). lia.
      * replace (i + 6 + 6 * (Z.of_nat fuel - 1)) with (i + 6 * (Z.of_nat (S fuel) - 1)) by lia.
        exact Hbound.
  - exists true. split; [reflexivity |]. split; [intros _ | reflexivity].
    apply no_small_divisor_prime; [lia |].
    intros d Hd Hdd. apply Hinv. nia.
Qed.

Lemma trial_division_correct fuel n :
  (1 <= fuel)%nat ->
  n < (5 + 6 * (Z.of_nat fuel - 1)) * (5 + 6 * (Z.of_nat fuel - 1)) ->
  exists b, trial_division fuel n = Some b /\ (b = true <-> Z.prime n).
Proof.
  intros Hfuel Hbound. unfold trial_division.
  destruct (Z.leb_spec n 1) as [Hle1 | Hgt1].
  { exists false. split; [reflexivity |]. split; [discriminate |].
    intros Hp. apply Z.prime_ge_2 in Hp. lia. }
  destruct (Z.leb_spec n 3) as [Hle3 | Hgt3].
  { exists true. split; [reflexivity |]. split; [intros _ | reflexivity].
    assert (Hn : n = 2 \/ n = 3) by lia.
    destruct Hn as [-> | ->]; [exact Z.prime_2 | exact Z.prime_3]. }
  destruct (Z.rem n 2 =? 0) eqn:H2; [| destruct (Z.rem n 3 =? 0) eqn:H3]; cbn [orb].
  - exists false. split; [reflexivity |]. split; [discriminate |].
    intros Hp. exfalso. apply rem_zero_divide in H2; [| lia].
    apply (proper_divisor_not_prime n 2); [lia | exact H2 | exact Hp].
  - exists false. split; [reflexivity |]. split; [discriminate |].
    intros Hp. exfalso. apply rem_zero_divide in H3; [| lia].
    apply (proper_divisor_not_prime n 3); [lia | exact H3 | exact Hp].
  - apply trial_loop_correct; try lia; [reflexivity |].
    intros d Hd Hdn.
    assert (Hcases : d = 2 \/ d = 3 \/ d = 4) by lia.
    destruct Hcases as [-> | [-> | ->]].
    + apply rem_zero_divide in Hdn; [congruence | lia].
    + apply rem_zero_divide in Hdn; [congruence | lia].
    + assert (H2n : (2 | n)) by (apply Z.divide_trans with 4; [exists 2; lia | exact Hdn]).
      apply rem_zero_divide in H2n; [congruence | lia].
Qed.

(** * Properties of the C program *)

Module CProofs.
Import C.

Lemma demo_calc_init :
  calculator_init (Some blank_calc) (Some "C Calculator"%string) PRECISION
  = (CALC_SUCCESS, Some demo_calc).
Proof. reflexivity. Qed.

Lemma blank_calc_wf : calculator_wf blank_calc.
Proof. split; reflexivity. Qed.

(** ** Failure of the engine function *)

(** C1: when the engine function handed to [perform_binary_operation] or
    [perform_unary_operation] fails, the call returns that very code, stores
    nothing over what the engine left behind [result] (no rounding), and
    hands the calculator back as it was: no entry appended, count and entries
    unchanged. *)
Theorem perform_engine_failure `{Libm} c operation k r errno now :
  ret_code (engine_call k r errno) <> CALC_SUCCESS ->
  perform c operation k r errno now =
    Some {| p_code := ret_code (engine_call k r errno);
            p_calc := Some c;
            p_result := Some (default r (ret_result (engine_call k r errno)));
            p_errno := ret_errno (engine_call k r errno) |}.
Proof.
  intros Hfail.
  destruct k as [f a b | f a]; cbn in *;
    (destruct (decide _) as [Heq | _]; [contradiction | reflexivity]).
Qed.

Lemma perform_engine_failure_witness :
  ret_code (engine_call (Binary calc_divide 10 0) 7 0) <> CALC_SUCCESS /\
  @perform ref_libm demo_calc OP_DIVIDE (Binary calc_divide 10 0) 7 0 1000 =
    Some {| p_code := CALC_ERROR_DIVISION_BY_ZERO;
            p_calc := Some demo_calc;
            p_result := Some 7%float;
            p_errno := 0 |}.
Proof.
  split; [ vm_compute; discriminate | ].
  apply (@perform_engine_failure ref_libm demo_calc OP_DIVIDE
           (Binary calc_divide 10 0) 7 0 1000).
  vm_compute; discriminate.
Defined.

(** ** Null pointers *)

(** C10: every engine function answers [CALC_ERROR_INVALID_INPUT] to a null
    [result], and the two entry points answer it to a null calculator, a null
    function pointer or a null [result]; nothing is computed ([errno] is as
    before, so [pow] was not called), nothing is stored, and the calculator is
    as before. *)
Theorem null_pointer_invalid_input `{Libm} :
  let invalid errno :=
    {| ret_code := CALC_ERROR_INVALID_INPUT; ret_result := None;
       ret_errno := errno |} in
  let refused calc result errno :=
    Some {| p_code := CALC_ERROR_INVALID_INPUT; p_calc := calc;
            p_result := result; p_errno := errno |} in
  (forall a b errno,
      calc_add a b None errno = invalid errno /\
      calc_subtract a b None errno = invalid errno /\
      calc_multiply a b None errno = invalid errno /\
      calc_divide a b None errno = invalid errno /\
      calc_power a b None errno = invalid errno) /\
  (forall x errno,
      calc_square x None errno = invalid errno /\
      calc_sqrt x None errno = invalid errno) /\
  (forall numbers count errno,
      calc_average numbers count None errno = Some (invalid errno)) /\
  (forall calc a b operation op_func result errno now,
      perform_binary_operation None a b operation op_func result errno now
        = refused None result errno /\
      perform_binary_operation calc a b operation None result errno now
        = refused calc result errno /\
      perform_binary_operation calc a b operation op_func None errno now
        = refused calc None errno) /\
  (forall calc a operation op_func result errno now,
      perform_unary_operation None a operation op_func result errno now
        = refused None result errno /\
      perform_unary_operation calc a operation None result errno now
        = refused calc result errno /\
      perform_unary_operation calc a operation op_func None errno now
        = refused calc None errno).
Proof.
  cbn zeta. repeat split.
  - destruct numbers; reflexivity.
  - destruct calc; reflexivity.
  - destruct calc, op_func; reflexivity.
  - destruct calc; reflexivity.
  - destruct calc, op_func; reflexivity.
Qed.

(** ** The overflow path of [calc_power] *)

Lemma engine_failure_untouched (f : binary_op_func) :
  f = calc_add \/ f = calc_subtract \/ f = calc_multiply \/ f = calc_divide ->
  forall a b result errno,
    ret_code (f a b result errno) <> CALC_SUCCESS ->
    ret_result (f a b result errno) = result.
Proof.
  intros [-> | [-> | [-> | ->]]] a b [r |] errno; cbn; try congruence.
  destruct (b =? 0)%float; cbn; congruence.
Qed.

(** C9: a call of [calc_power] that returns [CALC_ERROR_OVERFLOW] was given a
    non-null [result] and has stored the raw [pow(base, exponent)] there.
    Every other engine failure leaves the object behind [result] as it was:
    the null-pointer refusal of [calc_power] itself, and each failure of
    [calc_add], [calc_subtract], [calc_multiply], [calc_divide],
    [calc_square], [calc_sqrt] and [calc_average]. *)
Theorem calc_power_overflow_stores `{Libm} base exponent result errno :
  ret_code (calc_power base exponent result errno) = CALC_ERROR_OVERFLOW ->
  (is_Some result /\
   ret_result (calc_power base exponent result errno)
     = Some (pow base exponent)) /\
  (forall a b res e,
      ret_code (calc_power a b res e) <> CALC_SUCCESS ->
      ret_code (calc_power a b res e) <> CALC_ERROR_OVERFLOW ->
      ret_result (calc_power a b res e) = res) /\
  (forall (f : binary_op_func) a b res e,
      f = calc_add \/ f = calc_subtract \/ f = calc_multiply \/ f = calc_divide ->
      ret_code (f a b res e) <> CALC_SUCCESS ->
      ret_result (f a b res e) = res) /\
  (forall (f : unary_op_func) x res e,
      f = calc_square \/ f = calc_sqrt ->
      ret_code (f x res e) <> CALC_SUCCESS ->
      ret_result (f x res e) = res) /\
  (forall numbers count res e ret,
      calc_average numbers count res e = Some ret ->
      ret_code ret <> CALC_SUCCESS ->
      ret_result ret = res).
Proof.
  intros Hov. repeat split.
  - destruct result; [eauto | discriminate].
  - destruct result as [r |]; [| discriminate].
    cbn in *. destruct (_ =? ERANGE); reflexivity.
  - intros a b [r |] e; cbn; [| reflexivity].
    destruct (_ =? ERANGE); cbn; congruence.
  - intros f a b res e Hf. now apply engine_failure_untouched.
  - intros f x [r |] e [-> | ->]; cbn; try congruence.
    destruct (x <? 0)%float; cbn; congruence.
  - intros [ns |] count [r |] e ret; cbn; try (intros [= <-]; reflexivity).
    destruct (count <=? 0); [intros [= <-]; reflexivity |].
    destruct (average_loop _ _ _ _); cbn; [| discriminate].
    intros [= <-]; cbn; congruence.
Qed.

Lemma calc_power_overflow_stores_witness :
  ret_code (@calc_power ref_libm 10%float 400%float (Some 7%float) 0) = CALC_ERROR_OVERFLOW /\
  ret_result (@calc_power ref_libm 10%float 400%float (Some 7%float) 0) = Some infinity.
Proof.
  split; [ reflexivity | ].
  apply (@calc_power_overflow_stores ref_libm 10%float 400%float (Some 7%float) 0).
  reflexivity.
Defined.

(** ** Initialisation *)

(** C7 as stated fails: [calculator_init] accepts the empty string.  It
    returns [CALC_SUCCESS] and initialises the calculator with an all-NUL
    name buffer. *)
Lemma calculator_init_accepts_empty_name :
  calculator_init (Some blank_calc) (Some ""%string) PRECISION
  = (CALC_SUCCESS,
     Some {| name := replicate 50 zero;
             precision := PRECISION;
             history := history blank_calc;
             history_count := 0;
             enable_history := 1 |}).
Proof. reflexivity. Qed.

(** C7, amended: [calculator_init] returns [CALC_ERROR_INVALID_INPUT] when
    the calculator pointer or the name pointer is null, and then leaves the
    calculator storage as it was; with both present it succeeds whatever the
    string is (the empty one too), stores the characters cut at 49 and
    NUL-padded, terminates the buffer, sets the precision, empties the
    history and enables it. *)
Theorem calculator_init_spec calc name precision :
  match calc, name with
  | Some c, Some s =>
      exists c',
        calculator_init calc name precision = (CALC_SUCCESS, Some c') /\
        C.precision c' = precision /\
        history_count c' = 0 /\
        enable_history c' = 1 /\
        history c' = history c /\
        C.name c' = <[49%nat := zero]> (strncpy (C.name c) s 49)
  | _, _ =>
      calculator_init calc name precision = (CALC_ERROR_INVALID_INPUT, calc)
  end.
Proof.
  destruct calc as [c |], name as [s |]; try reflexivity.
  eexists; repeat split.
Qed.

(** ** Division *)

(** The C comparison [b == 0.0] holds for the two zeros and nothing else. *)
Lemma double_eq_zero (b : float) :
  (b =? 0)%float = true <-> b = 0%float \/ b = (-0)%float.
Proof.
  split.
  - rewrite FloatAxioms.eqb_spec. change (Prim2SF 0) with (S754_zero false).
    intros Hcmp. rewrite <- (SF2Prim_Prim2SF b).
    destruct (Prim2SF b) as [[|] | [|] | | [|] m e]; try discriminate Hcmp.
    + right; reflexivity.
    + left; reflexivity.
  - intros [-> | ->]; reflexivity.
Qed.

(** ** What a unary operation records *)

(** C8 as stated fails: the entry [perform_unary_operation] appends for
    [calc_square] on [8.0] holds two operands, the given one and the filler
    [0.0], since every [history_entry_t] carries the two-slot array. *)
Lemma unary_entry_records_two_slots :
  exists ret c' entry,
    @perform_unary_operation ref_libm (Some demo_calc) 8 OP_SQUARE
      (Some calc_square) (Some 0%float) 0 1000 = Some ret /\
    p_code ret = CALC_SUCCESS /\
    p_calc ret = Some c' /\
    history c' !! 0%nat = Some entry /\
    operand_slots entry = [8%float; 0%float] /\
    length (operand_slots entry) = 2%nat.
Proof. do 3 eexists. repeat split. Qed.

(** C8, amended: when a unary operation succeeds with history enabled and
    room left, [perform_unary_operation] appends at index [history_count] an
    entry that records the given operand in the first slot of the two-slot
    operand array and the filler [0.0] in the second, next to the operation
    kind, the rounded result and the time; for the kinds [OP_SQUARE] and
    [OP_SQRT], [print_history] shows the first slot alone. *)
Theorem unary_entry_recorded `{Libm} c a operation (f : unary_op_func) r errno now :
  calculator_wf c ->
  enable_history c <> 0 ->
  0 <= history_count c < MAX_HISTORY ->
  ret_code (f a (Some r) errno) = CALC_SUCCESS ->
  exists ret c' entry,
    perform_unary_operation (Some c) a operation (Some f) (Some r) errno now
      = Some ret /\
    p_code ret = CALC_SUCCESS /\
    p_calc ret = Some c' /\
    history_count c' = history_count c + 1 /\
    history c' !! Z.to_nat (history_count c) = Some entry /\
    entry = {| operation := operation;
               operands := (a, 0%float);
               result := round_to_precision
                           (default r (ret_result (f a (Some r) errno)))
                           (precision c);
               timestamp := now |} /\
    p_result ret = Some (result entry) /\
    operand_slots entry = [a; 0%float] /\
    (operation = OP_SQUARE \/ operation = OP_SQRT ->
     printed_operands entry = [a]).
Proof.
  intros [_ Hlen] Hen Hcount Hok. unfold MAX_HISTORY in *.
  unfold perform_unary_operation. rewrite Hok.
  destruct (decide _) as [_ | Hne]; [| contradiction].
  unfold add_to_history, MAX_HISTORY.
  destruct (Z.eqb_spec (enable_history c) 0) as [? | _]; [contradiction |].
  destruct (Z.leb_spec 100 (history_count c)) as [? | _]; [lia |].
  destruct (Z.ltb_spec (history_count c) 0) as [? | _]; [lia |].
  cbn. do 3 eexists. repeat split.
  - apply int_add_id. unfold INT_MIN, INT_MAX. lia.
  - apply list_lookup_insert_eq. rewrite Hlen. unfold MAX_HISTORY. lia.
  - intros [-> | ->]; reflexivity.
Qed.

Lemma unary_entry_recorded_witness :
  exists ret c' entry,
    @perform_unary_operation ref_libm (Some demo_calc) 16 OP_SQRT
      (Some calc_sqrt) (Some 0%float) 0 1000 = Some ret /\
    p_calc ret = Some c' /\
    history c' !! 0%nat = Some entry /\
    result entry = 4%float /\
    printed_operands entry = [16%float].
Proof.
  destruct (@unary_entry_recorded ref_libm demo_calc 16 OP_SQRT calc_sqrt
              0 0 1000)
    as (ret & c' & entry & Hret & _ & Hc' & _ & Hlook & Hentry & _ & _ & Hprint).
  - split; reflexivity.
  - discriminate.
  - split; [reflexivity | reflexivity].
  - reflexivity.
  - exists ret, c', entry. repeat split; try assumption.
    + rewrite Hentry. reflexivity.
    + apply Hprint. right; reflexivity.
Defined.

(** ** The bounded history of the C calculator *)

Section History.
Context `{Libm}.

Lemma add_to_history_full c operation a b res now :
  history_count c = MAX_HISTORY ->
  add_to_history c operation a b res now = Some c.
Proof.
  intros Hfull. unfold add_to_history. rewrite Hfull.
  rewrite Z.leb_refl, orb_true_r. reflexivity.
Qed.

Lemma add_to_history_count c operation a b res now c' :
  add_to_history c operation a b res now = Some c' ->
  0 <= history_count c <= MAX_HISTORY ->
  0 <= history_count c' <= MAX_HISTORY.
Proof.
  unfold add_to_history, MAX_HISTORY. intros Hadd Hc.
  destruct (enable_history c =? 0); cbn in Hadd; [congruence |].
  destruct (Z.leb_spec 100 (history_count c)); [congruence |].
  destruct (Z.ltb_spec (history_count c) 0); [discriminate |].
  injection Hadd as <-. cbn.
  rewrite int_add_id by (unfold INT_MIN, INT_MAX; lia). lia.
Qed.

Lemma perform_count c operation k r errno now ret c' :
  perform c operation k r errno now = Some ret ->
  p_calc ret = Some c' ->
  0 <= history_count c <= MAX_HISTORY ->
  0 <= history_count c' <= MAX_HISTORY.
Proof.
  destruct k as [f a b | f a]; cbn;
    (destruct (decide _) as [_ | _];
     [ destruct (add_to_history _ _ _ _ _ _) as [c1 |] eqn:Hadd; cbn;
       [ intros [= <-] [= <-]; eauto using add_to_history_count
       | discriminate ]
     | intros [= <-] [= <-]; auto ]).
Qed.

Lemma reachable_count c : reachable c -> 0 <= history_count c <= MAX_HISTORY.
Proof.
  induction 1 as [c0 s p c _ Hinit | c operation k r errno now ret c' _ IH Hp Hc
                 | c c' _ _ Hclear | c v _ IH].
  - injection Hinit as <-. cbn. unfold MAX_HISTORY. lia.
  - eauto using perform_count.
  - injection Hclear as <-. cbn. unfold MAX_HISTORY. lia.
  - exact IH.
Qed.

Lemma perform_full c operation k r errno now :
  history_count c = MAX_HISTORY ->
  exists ret,
    perform c operation k r errno now = Some ret /\
    p_code ret = ret_code (engine_call k r errno) /\
    p_calc ret = Some c.
Proof.
  intros Hfull.
  destruct k as [f a b | f a]; cbn;
    (destruct (decide _) as [_ | _];
     [ rewrite add_to_history_full by exact Hfull | ];
     cbn; eexists; repeat split).
Qed.

Lemma run_full c calls errno :
  history_count c = MAX_HISTORY ->
  exists errno', run c calls errno = Some (c, errno').
Proof.
  intros Hfull. revert errno.
  induction calls as [| [[[operation k] r] now] rest IH]; intros errno; cbn.
  - eauto.
  - destruct (perform_full c operation k r errno now Hfull)
      as (ret & -> & _ & Hc).
    cbn. rewrite Hc. cbn. apply IH.
Qed.

Lemma run_reachable c calls errno c' errno' :
  reachable c -> run c calls errno = Some (c', errno') -> reachable c'.
Proof.
  revert c errno.
  induction calls as [| [[[operation k] r] now] rest IH]; intros c errno Hc; cbn.
  - intros [= <- _]. exact Hc.
  - destruct (perform c operation k r errno now) as [ret |] eqn:Hp; [| discriminate].
    cbn. destruct (p_calc ret) as [c1 |] eqn:Hc1; [| discriminate].
    cbn. apply IH. eapply reach_perform; eassumption.
Qed.

End History.

(** C2, amended to the C calculator: in every reachable state
    [history_count] lies between 0 and [MAX_HISTORY] = 100.  At 100,
    [add_to_history] hands the calculator back as it is; a call through
    either entry point returns the code of its engine function (no error of
    its own) and leaves the count and every stored entry alone; so the
    calculator stays the same under any sequence of calls.  The C++
    calculator has no capacity: [addToHistory] appends whenever history is
    enabled. *)
Theorem history_bounded `{Libm} c :
  reachable c ->
  0 <= history_count c <= MAX_HISTORY /\
  (history_count c = MAX_HISTORY ->
     (forall operation a b res now,
         add_to_history c operation a b res now = Some c) /\
     (forall operation k r errno now,
         exists ret,
           perform c operation k r errno now = Some ret /\
           p_code ret = ret_code (engine_call k r errno) /\
           p_calc ret = Some c) /\
     (forall calls errno,
         exists errno', run c calls errno = Some (c, errno'))) /\
  (forall this op operands res now,
      length (Cpp.history_ (Cpp.addToHistory this op operands res now)) =
        if Cpp.enable_history_ this
        then S (length (Cpp.history_ this))
        else length (Cpp.history_ this)).
Proof.
  intros Hreach. split; [| split].
  - now apply reachable_count.
  - intros Hfull. repeat split.
    + intros. now apply add_to_history_full.
    + intros. now apply perform_full.
    + intros. now apply run_full.
  - intros this op operands res now. unfold Cpp.addToHistory.
    destruct (Cpp.enable_history_ this); cbn; [| reflexivity].
    rewrite length_app. cbn. lia.
Qed.

(** The calculator of the demonstration after one hundred additions. *)
Lemma history_bounded_witness :
  exists c errno',
    @run ref_libm demo_calc
      (replicate 100 (OP_ADD, Binary calc_add 10 5, 0%float, 1000)) 0
      = Some (c, 0) /\
    history_count c = 100 /\
    @run ref_libm c [(OP_SQUARE, Unary calc_square 8, 0%float, 2000)] 0
      = Some (c, errno').
Proof.
  destruct (@run ref_libm demo_calc
              (replicate 100 (OP_ADD, Binary calc_add 10 5, 0%float, 1000)) 0)
    as [[c e] |] eqn:Hrun; [| vm_compute in Hrun; discriminate].
  assert (Hreach : @reachable ref_libm c).
  { eapply run_reachable; [| exact Hrun].
    eapply reach_init; [exact blank_calc_wf | exact demo_calc_init]. }
  assert (Hc : history_count c = 100 /\ e = 0).
  { vm_compute in Hrun. injection Hrun as <- <-. split; reflexivity. }
  destruct Hc as [Hfull ->].
  destruct (@history_bounded ref_libm c Hreach) as (_ & Hat & _).
  destruct (Hat Hfull) as (_ & _ & Hrunfull).
  destruct (Hrunfull [(OP_SQUARE, Unary calc_square 8, 0%float, 2000)] 0)
    as [e' He'].
  exists c, e'. split; [reflexivity | split; [exact Hfull | exact He']].
Defined.

(** ** Factorial *)

Lemma factorial_rec_spec depth n :
  0 <= n <= INT_MAX ->
  (Z.to_nat n < depth)%nat ->
  factorial_rec depth n = Some (wrap 64 (product_down_to_one (Z.to_nat n))).
Proof.
  revert n. induction depth as [| depth IH]; intros n Hn Hdepth; [lia |].
  cbn [factorial_rec].
  destruct (Z.ltb_spec n 0) as [? | _]; [lia |].
  destruct (Z.leb_spec n 1) as [Hle | Hgt].
  - assert (Hcases : n = 0 \/ n = 1) by lia.
    destruct Hcases as [-> | ->]; reflexivity.
  - unfold INT_MAX in Hn.
    rewrite int_add_id by (unfold INT_MIN, INT_MAX; lia).
    replace (n + -1) with (n - 1) by lia.
    rewrite IH by (unfold INT_MAX; lia). cbn.
    unfold llong_mul. rewrite wrap_mul_r.
    rewrite (product_down_to_one_succ n) by lia. reflexivity.
Qed.

Lemma factorial_negative n : n < 0 -> factorial n = Some (-1).
Proof.
  intros Hn. unfold factorial.
  replace (Z.to_nat n + 1)%nat with 1%nat by lia. cbn.
  destruct (Z.ltb_spec n 0); [reflexivity | lia].
Qed.

(** ** Successful calls and the history *)

Section Success.
Context `{Libm}.

Lemma perform_success c operation k r errno now :
  ret_code (engine_call k r errno) = CALC_SUCCESS ->
  perform c operation k r errno now =
    c' ← add_to_history c operation (call_operands k).1 (call_operands k).2
           (rounded_result c k r errno) now;
    Some {| p_code := CALC_SUCCESS;
            p_calc := Some c';
            p_result := Some (rounded_result c k r errno);
            p_errno := pow_errno 10 (double_of_Z (precision c))
                         (ret_errno (engine_call k r errno)) |}.
Proof.
  intros Hok. unfold rounded_result.
  destruct k as [f a b | f a]; cbn in *; rewrite Hok;
    (destruct (decide _) as [_ | Hne]; [reflexivity | contradiction]).
Qed.

Lemma add_to_history_room c operation a b res now :
  enable_history c <> 0 ->
  0 <= history_count c < MAX_HISTORY ->
  add_to_history c operation a b res now =
    Some {| name := name c;
            precision := precision c;
            history :=
              <[Z.to_nat (history_count c) :=
                  {| operation := operation; operands := (a, b);
                     result := res; timestamp := now |}]> (history c);
            history_count := history_count c + 1;
            enable_history := enable_history c |}.
Proof.
  unfold add_to_history, MAX_HISTORY. intros Hen Hcount.
  destruct (Z.eqb_spec (enable_history c) 0) as [? | _]; [contradiction |].
  destruct (Z.leb_spec 100 (history_count c)) as [? | _]; [lia |].
  destruct (Z.ltb_spec (history_count c) 0) as [? | _]; [lia |].
  cbn. rewrite int_add_id by (unfold INT_MIN, INT_MAX; lia). reflexivity.
Qed.

Lemma add_to_history_disabled c operation a b res now :
  enable_history c = 0 -> add_to_history c operation a b res now = Some c.
Proof. unfold add_to_history. intros ->. reflexivity. Qed.

End Success.

(** A successful call through either entry point, with history enabled and
    room left, returns [CALC_SUCCESS] and the rounded value, stores exactly
    one entry (kind, both operands, rounded value, time) at index
    [history_count], raises the count by one, and leaves every other slot of
    the array, the name, the precision and the flag as they were. *)
Theorem perform_success_appends `{Libm} c operation k r errno now :
  calculator_wf c ->
  enable_history c <> 0 ->
  0 <= history_count c < MAX_HISTORY ->
  ret_code (engine_call k r errno) = CALC_SUCCESS ->
  exists ret c',
    perform c operation k r errno now = Some ret /\
    p_code ret = CALC_SUCCESS /\
    p_result ret = Some (rounded_result c k r errno) /\
    p_calc ret = Some c' /\
    history_count c' = history_count c + 1 /\
    history c' !! Z.to_nat (history_count c) =
      Some {| operation := operation; operands := call_operands k;
              result := rounded_result c k r errno; timestamp := now |} /\
    (forall j, j <> Z.to_nat (history_count c) ->
               history c' !! j = history c !! j) /\
    name c' = name c /\ precision c' = precision c /\
    enable_history c' = enable_history c /\
    calculator_wf c'.
Proof.
  intros [Hname Hlen] Hen Hcount Hok.
  rewrite (perform_success c operation k r errno now Hok).
  rewrite add_to_history_room by assumption. cbn.
  do 2 eexists. split; [reflexivity |]. cbn.
  split; [reflexivity |]. split; [reflexivity |]. split; [reflexivity |].
  split; [reflexivity |]. split; [| split; [| split; [| split; [| split]]]];
    try reflexivity.
  - cbn [history]. rewrite list_lookup_insert_eq; [| unfold MAX_HISTORY in *; lia].
    destruct (call_operands k); reflexivity.
  - intros j Hj. cbn [history]. apply list_lookup_insert_ne. congruence.
  - split; cbn; [exact Hname | now rewrite length_insert].
Qed.

Lemma perform_success_appends_witness :
  exists ret c',
    @perform ref_libm demo_calc OP_DIVIDE (Binary calc_divide 15 3) 0 0 1000
      = Some ret /\
    p_result ret = Some 5%float /\
    p_calc ret = Some c' /\
    history_count c' = 1 /\
    history c' !! 0%nat =
      Some {| operation := OP_DIVIDE; operands := (15%float, 3%float);
              result := 5%float; timestamp := 1000 |}.
Proof.
  destruct (@perform_success_appends ref_libm demo_calc OP_DIVIDE
              (Binary calc_divide 15 3) 0 0 1000)
    as (ret & c' & Hp & _ & Hres & Hc & Hcount & Hentry & _).
  - split; reflexivity.
  - discriminate.
  - split; reflexivity.
  - reflexivity.
  - exists ret, c'. split; [exact Hp |].
    split; [exact Hres |]. split; [exact Hc |].
    split; [exact Hcount | exact Hentry].
Defined.

(** With history disabled ([enable_history] 0) a successful call still
    returns the rounded value but hands the calculator back untouched. *)
Theorem perform_history_disabled `{Libm} c operation k r errno now :
  enable_history c = 0 ->
  ret_code (engine_call k r errno) = CALC_SUCCESS ->
  exists ret,
    perform c operation k r errno now = Some ret /\
    p_code ret = CALC_SUCCESS /\
    p_result ret = Some (rounded_result c k r errno) /\
    p_calc ret = Some c.
Proof.
  intros Hoff Hok.
  rewrite (perform_success c operation k r errno now Hok).
  rewrite add_to_history_disabled by exact Hoff. cbn.
  eexists. repeat split.
Qed.

Lemma perform_history_disabled_witness :
  exists ret,
    @perform ref_libm (set_enable_history demo_calc 0) OP_SQUARE
      (Unary calc_square 8) 0 0 1000 = Some ret /\
    p_result ret = Some 64%float /\
    p_calc ret = Some (set_enable_history demo_calc 0).
Proof.
  destruct (@perform_history_disabled ref_libm (set_enable_history demo_calc 0)
              OP_SQUARE (Unary calc_square 8) 0 0 1000)
    as (ret & Hp & _ & Hres & Hc).
  - reflexivity.
  - reflexivity.
  - exists ret. split; [exact Hp |]. split; [exact Hres | exact Hc].
Defined.

(** [clear_history] only resets the count: the array keeps its content, and
    the calculator, full or not, takes entries again, the next successful
    call being stored at index 0.  On a null pointer it does nothing. *)
Theorem clear_history_reopens `{Libm} c operation k r errno now :
  calculator_wf c ->
  enable_history c <> 0 ->
  ret_code (engine_call k r errno) = CALC_SUCCESS ->
  clear_history None = None /\
  exists c0 ret c',
    clear_history (Some c) = Some c0 /\
    history_count c0 = 0 /\
    history c0 = history c /\
    name c0 = name c /\ precision c0 = precision c /\
    enable_history c0 = enable_history c /\
    perform c0 operation k r errno now = Some ret /\
    p_code ret = CALC_SUCCESS /\
    p_calc ret = Some c' /\
    history_count c' = 1 /\
    history c' !! 0%nat =
      Some {| operation := operation; operands := call_operands k;
              result := rounded_result c k r errno; timestamp := now |}.
Proof.
  intros [Hname Hlen] Hen Hok. split; [reflexivity |].
  eexists _, _, _. split; [reflexivity |]. cbn.
  do 5 (split; [reflexivity |]).
  rewrite perform_success by exact Hok.
  rewrite add_to_history_room by (cbn; unfold MAX_HISTORY; first [assumption | lia]).
  cbn. split; [reflexivity |]. cbn.
  do 3 (split; [reflexivity |]).
  cbn [history history_count].
  rewrite list_lookup_insert_eq by (rewrite Hlen; unfold MAX_HISTORY; lia).
  destruct (call_operands k); reflexivity.
Qed.

Lemma full_calc_ex :
  exists c, @reachable ref_libm c /\ history_count c = 100 /\
            enable_history c = 1 /\ calculator_wf c /\ precision c = 4.
Proof.
  destruct (@run ref_libm demo_calc
              (replicate 100 (OP_ADD, Binary calc_add 10 5, 0%float, 1000)) 0)
    as [[c e] |] eqn:Hrun; [| vm_compute in Hrun; discriminate].
  exists c. split.
  - eapply run_reachable; [| exact Hrun].
    eapply reach_init; [exact blank_calc_wf | exact demo_calc_init].
  - vm_compute in Hrun. injection Hrun as <- _.
    repeat split; reflexivity.
Qed.

Lemma clear_history_reopens_witness :
  exists c c0 ret c',
    history_count c = 100 /\
    clear_history (Some c) = Some c0 /\
    @perform ref_libm c0 OP_SQRT (Unary calc_sqrt 16) 0 0 2000 = Some ret /\
    p_calc ret = Some c' /\
    history_count c' = 1 /\
    result <$> history c' !! 0%nat = Some 4%float.
Proof.
  destruct full_calc_ex as (c & _ & Hfull & Hen & Hwf & Hprec).
  destruct (@clear_history_reopens ref_libm c OP_SQRT (Unary calc_sqrt 16)
              0 0 2000 Hwf)
    as (_ & c0 & ret & c' & Hclear & _ & _ & _ & _ & _ & Hp & _ & Hc & Hcount
        & Hentry).
  - rewrite Hen. discriminate.
  - reflexivity.
  - exists c, c0, ret, c'. repeat (split; [assumption |]).
    rewrite Hentry. cbn. unfold rounded_result. rewrite Hprec. reflexivity.
Defined.



(** ** The stored name *)

Lemma c_chars_nonzero s : Forall (fun ch => Ascii.eqb ch zero = false) (c_chars s).
Proof.
  induction s as [| ch s IH]; cbn; [constructor |].
  destruct (Ascii.eqb ch zero) eqn:Hch; [constructor |].
  constructor; assumption.
Qed.

Lemma buffer_chars_app_zero l rest :
  Forall (fun ch => Ascii.eqb ch zero = false) l ->
  buffer_chars (l ++ zero :: rest) = l.
Proof.
  induction 1 as [| ch l Hch _ IH]; cbn; [reflexivity |].
  rewrite Hch, IH. reflexivity.
Qed.

(** Round trip of the name: after [calculator_init] in well-formed storage,
    the name buffer still has its 50 bytes, ends in NUL, and reads back as
    the first 49 characters of the string that was passed (the whole string
    when it is shorter). *)
Theorem calculator_init_name_round_trip c s p :
  calculator_wf c ->
  exists c',
    calculator_init (Some c) (Some s) p = (CALC_SUCCESS, Some c') /\
    buffer_chars (name c') = take 49 (c_chars s) /\
    name c' !! 49%nat = Some zero /\
    calculator_wf c'.
Proof.
  intros [Hname Hlen]. eexists. split; [reflexivity |].
  unfold calculator_wf. cbn [name history]. unfold strncpy. change (Z.to_nat (MAX_NAME_LENGTH - 1)) with 49%nat.
  change (Z.to_nat MAX_NAME_LENGTH) with 50%nat in Hname.
  set (cs := c_chars s).
  assert (Hpre : length (take 49 (cs ++ replicate 49 zero)) = 49%nat).
  { rewrite length_take, length_app, length_replicate. lia. }
  destruct (drop 49 (name c)) as [| y [| z tl]] eqn:Hdrop.
  - apply (f_equal length) in Hdrop. rewrite length_drop in Hdrop. cbn in Hdrop. lia.
  - assert (Hbuf : <[49%nat := zero]> (take 49 (cs ++ replicate 49 zero) ++ [y])
                   = take 49 cs ++ replicate (49 - length cs) zero ++ [zero]).
    { rewrite insert_app_r_alt by lia. rewrite Hpre.
      replace (49 - 49)%nat with 0%nat by lia.
      change (<[0%nat := zero]> [y]) with [zero].
      rewrite take_app, take_replicate.
      rewrite <- app_assoc. do 2 f_equal. f_equal. lia. }
    rewrite Hbuf. split; [| split; [| split]].
    + destruct (49 - length cs)%nat; cbn [replicate app];
        apply buffer_chars_app_zero, Forall_take, c_chars_nonzero.
    + assert (Hl : length (take 49 cs ++ replicate (49 - length cs) zero)
                   = 49%nat)
        by (rewrite length_app, length_take, length_replicate; lia).
      rewrite app_assoc, lookup_app_r by lia. rewrite Hl. reflexivity.
    + change (Z.to_nat MAX_NAME_LENGTH) with 50%nat.
      rewrite !length_app, length_take, length_replicate. cbn [length]. lia.
    + exact Hlen.
  - apply (f_equal length) in Hdrop. rewrite length_drop in Hdrop. cbn in Hdrop. lia.
Qed.

Lemma calculator_init_name_round_trip_witness :
  exists c',
    calculator_init (Some blank_calc)
      (Some "A calculator name that is much longer than the fifty bytes of the buffer"%string)
      2 = (CALC_SUCCESS, Some c') /\
    buffer_chars (name c')
      = c_chars "A calculator name that is much longer than the fi".
Proof.
  destruct (calculator_init_name_round_trip blank_calc
              "A calculator name that is much longer than the fifty bytes of the buffer"
              2 blank_calc_wf)
    as (c' & Hinit & Hname & _).
  exists c'. split; [exact Hinit |]. rewrite Hname. reflexivity.
Defined.

(** ** Names of operations and errors *)

(** [get_operation_name] gives different kinds different names, and
    [get_error_message] gives different codes different messages; only
    [CALC_SUCCESS] reads "Success". *)
Theorem names_distinguish o1 o2 e1 e2 :
  (get_operation_name o1 = get_operation_name o2 -> o1 = o2) /\
  (get_error_message e1 = get_error_message e2 -> e1 = e2) /\
  (get_error_message e1 = "Success"%string <-> e1 = CALC_SUCCESS).
Proof.
  split; [| split; [| split]].
  - destruct o1, o2; cbn; intros Heq; first [reflexivity | discriminate Heq].
  - destruct e1, e2; cbn; intros Heq; first [reflexivity | discriminate Heq].
  - destruct e1; cbn; intros Heq; first [reflexivity | discriminate Heq].
  - intros ->. reflexivity.
Qed.

(** ** Signs of squares and roots *)

Lemma round_aux_not_negative mx ex lx :
  SFltb (binary_round_aux prec emax false mx ex lx) (S754_zero false) = false.
Proof.
  unfold binary_round_aux.
  destruct (shr_fexp prec emax mx ex lx) as [mrs' e'].
  destruct (shr_fexp prec emax _ e' loc_Exact) as [mrs'' e''].
  destruct (shr_m mrs'') as [| m | m]; [reflexivity | | reflexivity].
  destruct (Z.leb e'' _); reflexivity.
Qed.

Lemma square_not_negative (x : float) : (x * x <? 0)%float = false.
Proof.
  rewrite FloatAxioms.ltb_spec, FloatAxioms.mul_spec. change (Prim2SF 0) with (S754_zero false).
  unfold SF64mul, SFmul.
  destruct (Prim2SF x) as [[|] | [|] | | [|] m e]; try reflexivity;
    apply round_aux_not_negative.
Qed.

Lemma sqrt_not_negative (x : float) :
  (x <? 0)%float = false -> (PrimFloat.sqrt x <? 0)%float = false.
Proof.
  rewrite !FloatAxioms.ltb_spec, FloatAxioms.sqrt_spec. change (Prim2SF 0) with (S754_zero false).
  unfold SF64sqrt, SFsqrt.
  destruct (Prim2SF x) as [[|] | [|] | | [|] m e]; try reflexivity;
    try discriminate.
  intros _. destruct (SFsqrt_core_binary prec emax (Z.pos m) e) as [[mz ez] lz].
  apply round_aux_not_negative.
Qed.

(** [calc_square] always succeeds and [calc_sqrt] fails, with
    [CALC_ERROR_NEGATIVE_ROOT], exactly when [x < 0] (so not on NaN and not
    on the negative zero); neither ever stores a negative value. *)
Theorem square_and_sqrt_not_negative x r errno :
  (exists v,
      calc_square x (Some r) errno =
        {| ret_code := CALC_SUCCESS; ret_result := Some v; ret_errno := errno |} /\
      (v <? 0)%float = false) /\
  (ret_code (calc_sqrt x (Some r) errno) = CALC_ERROR_NEGATIVE_ROOT
     <-> (x <? 0)%float = true) /\
  (ret_code (calc_sqrt x (Some r) errno) = CALC_SUCCESS
     <-> (x <? 0)%float = false) /\
  (forall v, ret_result (calc_sqrt x (Some r) errno) = Some v ->
             ret_code (calc_sqrt x (Some r) errno) = CALC_SUCCESS ->
             (v <? 0)%float = false).
Proof.
  split; [| split; [| split]].
  - eexists. split; [reflexivity | apply square_not_negative].
  - cbn. destruct (x <? 0)%float; cbn; split; congruence.
  - cbn. destruct (x <? 0)%float; cbn; split; congruence.
  - cbn. destruct (x <? 0)%float eqn:Hx; cbn; [discriminate |].
    intros v [= <-] _. now apply sqrt_not_negative.
Qed.

(** ** The average over an array *)

Lemma average_loop_in_bounds ns todo : forall i sum,
  (i + todo <= length ns)%nat ->
  average_loop ns todo i sum
  = Some (fold_left PrimFloat.add (take todo (drop i ns)) sum).
Proof.
  induction todo as [| todo IH]; intros i sum Hle; cbn [average_loop].
  - reflexivity.
  - destruct (ns !! i) as [x |] eqn:Hx.
    + cbn. rewrite IH by lia.
      rewrite (drop_S ns x i Hx). reflexivity.
    + apply lookup_ge_None in Hx. lia.
Qed.

Lemma average_loop_out_of_bounds ns todo : forall i sum,
  (i <= length ns < i + todo)%nat -> average_loop ns todo i sum = None.
Proof.
  induction todo as [| todo IH]; intros i sum Hgt; cbn [average_loop]; [lia |].
  destruct (ns !! i) as [x |] eqn:Hx; [| reflexivity].
  apply lookup_lt_Some in Hx. cbn. apply IH. lia.
Qed.

(** [calc_average] on non-null pointers: with [count <= 0] it refuses with
    [CALC_ERROR_INVALID_INPUT] and stores nothing; with [count] up to the
    length of the array it succeeds and stores the sum of the first [count]
    elements, added from the left starting at [0.0], divided by [count];
    with [count] beyond the array it reads past its end. *)
Theorem calc_average_spec ns count r errno :
  (count <= 0 ->
     calc_average (Some ns) count (Some r) errno =
       Some {| ret_code := CALC_ERROR_INVALID_INPUT; ret_result := Some r;
               ret_errno := errno |}) /\
  (0 < count <= Z.of_nat (length ns) ->
     calc_average (Some ns) count (Some r) errno =
       Some {| ret_code := CALC_SUCCESS;
               ret_result :=
                 Some (fold_left PrimFloat.add (take (Z.to_nat count) ns) 0
                       / double_of_Z count)%float;
               ret_errno := errno |}) /\
  (Z.of_nat (length ns) < count ->
     calc_average (Some ns) count (Some r) errno = None).
Proof.
  unfold calc_average. split; [| split]; intros Hcount.
  - destruct (Z.leb_spec count 0); [reflexivity | lia].
  - destruct (Z.leb_spec count 0); [lia |].
    rewrite average_loop_in_bounds by lia. reflexivity.
  - destruct (Z.leb_spec count 0); [lia |].
    rewrite average_loop_out_of_bounds by lia. reflexivity.
Qed.

Lemma calc_average_spec_witness :
  calc_average (Some [1; 2; 3; 4; 5]%float) 5 (Some 0%float) 0 =
    Some {| ret_code := CALC_SUCCESS; ret_result := Some 3%float;
            ret_errno := 0 |} /\
  calc_average (Some [1; 2; 3; 4; 5]%float) 6 (Some 0%float) 0 = None /\
  calc_average (Some [1; 2; 3; 4; 5]%float) 0 (Some 0%float) 0 =
    Some {| ret_code := CALC_ERROR_INVALID_INPUT; ret_result := Some 0%float;
            ret_errno := 0 |}.
Proof.
  destruct (calc_average_spec [1; 2; 3; 4; 5]%float 5 0 0) as (_ & Hin & _).
  destruct (calc_average_spec [1; 2; 3; 4; 5]%float 6 0 0) as (_ & _ & Hout).
  destruct (calc_average_spec [1; 2; 3; 4; 5]%float 0 0 0) as (Hzero & _ & _).
  split; [| split].
  - rewrite Hin by (cbn; lia). reflexivity.
  - apply Hout. cbn. lia.
  - apply Hzero. lia.
Defined.

(** ** [errno] is never cleared *)



(** ** What no call changes *)

Lemma add_to_history_configuration c operation a b res now c' :
  add_to_history c operation a b res now = Some c' ->
  name c' = name c /\ precision c' = precision c /\
  enable_history c' = enable_history c /\
  length (history c') = length (history c).
Proof.
  unfold add_to_history. destruct (_ || _); [intros [= <-]; auto |].
  destruct (_ <? _); [discriminate |].
  intros [= <-]. cbn. rewrite length_insert. auto.
Qed.

Lemma perform_configuration `{Libm} c operation k r errno now ret c' :
  perform c operation k r errno now = Some ret ->
  p_calc ret = Some c' ->
  name c' = name c /\ precision c' = precision c /\
  enable_history c' = enable_history c /\
  length (history c') = length (history c).
Proof.
  destruct k as [f a b | f a]; cbn;
    (destruct (decide _) as [_ | _];
     [ destruct (add_to_history _ _ _ _ _ _) as [c1 |] eqn:Hadd; cbn;
       [ intros [= <-] [= <-]; eauto using add_to_history_configuration
       | discriminate ]
     | intros [= <-] [= <-]; auto ]).
Qed.

(** No sequence of calls through the two entry points, successful or not,
    changes the name, the precision or the history flag of the calculator,
    or the size of its history array. *)
Theorem run_keeps_configuration `{Libm} calls : forall c errno c' errno',
  run c calls errno = Some (c', errno') ->
  name c' = name c /\ precision c' = precision c /\
  enable_history c' = enable_history c /\
  length (history c') = length (history c).
Proof.
  induction calls as [| [[[operation k] r] now] rest IH];
    intros c errno c' errno'; cbn [run].
  - intros [= <- _]. auto.
  - destruct (perform c operation k r errno now) as [ret |] eqn:Hp;
      [| discriminate].
    cbn. destruct (p_calc ret) as [c1 |] eqn:Hc1; [| discriminate]. cbn.
    intros Hrun.
    destruct (perform_configuration _ _ _ _ _ _ _ _ Hp Hc1)
      as (Hn & Hpr & Hen & Hlen).
    destruct (IH _ _ _ _ Hrun) as (Hn' & Hpr' & Hen' & Hlen').
    repeat split; congruence.
Qed.

Lemma run_keeps_configuration_witness :
  exists c' errno',
    @run ref_libm demo_calc
      [(OP_DIVIDE, Binary calc_divide 10 0, 0%float, 1000);
       (OP_SQRT, Unary calc_sqrt 16, 0%float, 1001)] 0 = Some (c', errno') /\
    name c' = name demo_calc /\ precision c' = 4 /\ history_count c' = 1.
Proof.
  destruct (@run ref_libm demo_calc
      [(OP_DIVIDE, Binary calc_divide 10 0, 0%float, 1000);
       (OP_SQRT, Unary calc_sqrt 16, 0%float, 1001)] 0)
    as [[c' e'] |] eqn:Hrun; [| discriminate Hrun].
  destruct (@run_keeps_configuration ref_libm _ _ _ _ _ Hrun)
    as (Hn & Hp & _).
  exists c', e'. split; [reflexivity |]. split; [exact Hn |].
  split; [rewrite Hp; reflexivity |].
  vm_compute in Hrun. injection Hrun as <- _. reflexivity.
Defined.

(** ** The order of the recorded entries *)



End CProofs.

(** * Properties of the C++ program *)

Module CppProofs.
Import Cpp.

(** C3 as stated fails on [AdvancedCalculator::divide]: with the precision of
    the demonstration, [divide(1.0, 3.0)] returns [0.3333], not the quotient
    [1.0 / 3.0]. *)
Lemma divide_returns_rounded_quotient :
  exists c',
    @divide ref_libm (AdvancedCalculator "Double Calculator" 4) 1 3 1000
      = Return (0x1.554c985f06f69p-2%float, c') /\
    (0x1.554c985f06f69p-2 =? 1 / 3)%float = false.
Proof. eexists; split; reflexivity. Qed.

(** C3, amended.  The engine function [calc_divide], given a non-null
    [result], fails with [CALC_ERROR_DIVISION_BY_ZERO] exactly when [b] is a
    zero, storing nothing, and otherwise succeeds and stores the IEEE-754
    quotient [a / b] unrounded.  [AdvancedCalculator::divide] throws exactly
    when [b] is a zero, and otherwise returns the quotient rounded to the
    calculator's precision, which it also logs. *)
Theorem divide_spec `{Libm} (a b r : float) (errno : Z)
    (this : CalculatorBase) (now : Z) :
  let zero_divisor := b = 0%float \/ b = (-0)%float in
  (C.ret_code (C.calc_divide a b (Some r) errno) = C.CALC_ERROR_DIVISION_BY_ZERO
     <-> zero_divisor) /\
  (zero_divisor ->
     C.calc_divide a b (Some r) errno =
       {| C.ret_code := C.CALC_ERROR_DIVISION_BY_ZERO;
          C.ret_result := Some r; C.ret_errno := errno |}) /\
  (~ zero_divisor ->
     C.calc_divide a b (Some r) errno =
       {| C.ret_code := C.CALC_SUCCESS;
          C.ret_result := Some (a / b)%float; C.ret_errno := errno |}) /\
  (zero_divisor ->
     divide this a b now = Throw "Calculator Error: Division by zero") /\
  (~ zero_divisor ->
     divide this a b now =
       Return (roundToPrecision this (a / b)%float,
               addToHistory this DIVIDE [a; b]
                 (roundToPrecision this (a / b)%float) now)).
Proof.
  cbn zeta. rewrite <- CProofs.double_eq_zero.
  unfold C.calc_divide, divide.
  destruct (b =? 0)%float; cbn; repeat split; intros; congruence.
Qed.

(** ** The unbounded history of the C++ calculator *)

Lemma add_repeatedly_reachable `{Libm} n this :
  reachable this -> reachable (add_repeatedly n this).
Proof.
  intros Hthis. induction n as [| n IH]; cbn; [exact Hthis |].
  apply (reach_add _ 1%float 2%float 1000 IH).
Qed.

(** C2 as stated fails on [CalculatorBase::addToHistory]: after one hundred
    and one additions the history of a fresh calculator has one hundred and
    one entries. *)
Lemma history_exceeds_capacity :
  exists this,
    @reachable ref_libm this /\
    length (history_ this) = 101%nat /\
    (100 <? Z.of_nat (length (history_ this))) = true.
Proof.
  exists (@add_repeatedly ref_libm 101 (AdvancedCalculator "Double Calculator" 4)).
  split; [| split; vm_compute; reflexivity].
  apply add_repeatedly_reachable, reach_new.
Qed.

(** ** Factorial *)

Lemma template_factorial_rec_spec bits depth n :
  1 < bits ->
  0 <= n < 2 ^ (bits - 1) ->
  (Z.to_nat n < depth)%nat ->
  factorial_rec bits depth n
  = Some (Return (wrap bits (product_down_to_one (Z.to_nat n)))).
Proof.
  intros Hbits. revert n.
  induction depth as [| depth IH]; intros n Hn Hdepth; [lia |].
  cbn [factorial_rec].
  destruct (Z.ltb_spec n 0) as [? | _]; [lia |].
  assert (Hone : wrap bits 1 = 1).
  { apply wrap_id; [lia |].
    assert (2 ^ 1 <= 2 ^ (bits - 1)) by (apply Z.pow_le_mono_r; lia). lia. }
  destruct (Z.leb_spec n 1) as [Hle | Hgt].
  - assert (Hcases : n = 0 \/ n = 1) by lia.
    destruct Hcases as [-> | ->];
      [ change (product_down_to_one (Z.to_nat 0)) with 1
      | change (product_down_to_one (Z.to_nat 1)) with 1 ];
      now rewrite Hone.
  - rewrite (wrap_id bits (n - 1)) by lia.
    rewrite IH by lia. cbn.
    rewrite wrap_mul_r.
    rewrite (product_down_to_one_succ n) by lia. reflexivity.
Qed.

Lemma template_factorial_negative bits n :
  n < 0 ->
  factorial bits n
  = Some (Throw "Calculator Error: Factorial is only defined for non-negative numbers").
Proof.
  intros Hn. unfold factorial.
  replace (Z.to_nat n + 1)%nat with 1%nat by lia. cbn.
  destruct (Z.ltb_spec n 0); [reflexivity | lia].
Qed.

(** C5: for every [int] [n], [factorial(n)] signals failure when [n < 0]
    (the C function returns -1, the C++ template throws), returns 1 for 0
    and 1, and otherwise returns the product [n * (n - 1) * ... * 1] reduced
    to 64-bit two's complement, which is the product itself up to [n = 20].
    The C++ template is taken at a 64-bit [T], the width the C function
    computes in. *)
Theorem factorial_spec n :
  INT_MIN <= n <= INT_MAX ->
  (n < 0 ->
     C.factorial n = Some (-1) /\
     factorial 64 n =
       Some (Throw "Calculator Error: Factorial is only defined for non-negative numbers")) /\
  (n = 0 \/ n = 1 ->
     C.factorial n = Some 1 /\ factorial 64 n = Some (Return 1)) /\
  (2 <= n ->
     C.factorial n = Some (wrap 64 (product_down_to_one (Z.to_nat n))) /\
     factorial 64 n
       = Some (Return (wrap 64 (product_down_to_one (Z.to_nat n))))) /\
  (2 <= n <= 20 ->
     wrap 64 (product_down_to_one (Z.to_nat n))
       = product_down_to_one (Z.to_nat n)).
Proof.
  intros Hn.
  assert (Hnonneg : 0 <= n ->
            C.factorial n = Some (wrap 64 (product_down_to_one (Z.to_nat n))) /\
            factorial 64 n
              = Some (Return (wrap 64 (product_down_to_one (Z.to_nat n))))).
  { intros H0. split.
    - apply CProofs.factorial_rec_spec; lia.
    - apply template_factorial_rec_spec; [lia | | lia].
      change (2 ^ (64 - 1)) with 9223372036854775808.
      unfold INT_MAX in Hn. lia. }
  split; [| split; [| split]].
  - intros Hneg. split.
    + now apply CProofs.factorial_negative.
    + now apply template_factorial_negative.
  - intros [-> | ->]; split; reflexivity.
  - intros Hge. apply Hnonneg. lia.
  - intros Hsmall. apply product_down_to_one_small. lia.
Qed.

Lemma factorial_spec_witness :
  INT_MIN <= 21 <= INT_MAX /\
  C.factorial 5 = Some 120 /\
  C.factorial 21 = Some (-4249290049419214848) /\
  factorial 64 21 = Some (Return (-4249290049419214848)).
Proof.
  split; [unfold INT_MIN, INT_MAX; lia |].
  assert (H21 : INT_MIN <= 21 <= INT_MAX) by (unfold INT_MIN, INT_MAX; lia).
  assert (H5 : INT_MIN <= 5 <= INT_MAX) by (unfold INT_MIN, INT_MAX; lia).
  destruct (factorial_spec 21 H21) as (_ & _ & Hbig & _).
  destruct (factorial_spec 5 H5) as (_ & _ & Hsmall & _).
  destruct (Hbig ltac:(lia)) as [Hc Hcpp].
  destruct (Hsmall ltac:(lia)) as [Hc5 _].
  split; [exact Hc5 | split; [exact Hc | exact Hcpp]].
Defined.

(** ** The integer calculator: gcd and lcm *)

Lemma gcd_loop_spec fuel : forall a b,
  0 <= a -> 0 <= b <= Z.of_nat fuel ->
  gcd_loop fuel a b = Some (Z.gcd a b).
Proof.
  induction fuel as [| fuel IH]; intros a b Ha Hb.
  - replace b with 0 by lia. cbn. rewrite Z.gcd_0_r. f_equal. lia.
  - cbn [gcd_loop]. destruct (Z.eqb_spec b 0) as [-> | Hb0].
    + rewrite Z.gcd_0_r. f_equal. lia.
    + rewrite Z.rem_mod_nonneg by lia.
      pose proof (Z.mod_pos_bound a b ltac:(lia)) as Hmod.
      rewrite IH by lia.
      rewrite Z.gcd_comm, Z.gcd_mod by exact Hb0.
      rewrite Z.gcd_comm. reflexivity.
Qed.

(** [IntegerCalculator::gcd] computes the greatest common divisor: for two
    [int]s other than [INT_MIN] (whose absolute value overflows) the loop
    ends, after at most [|b|] rounds, with [Z.gcd a b]; so the result is
    never negative and is 0 only for [gcd(0, 0)]. *)
Theorem gcd_spec fuel a b :
  INT_MIN < a <= INT_MAX ->
  INT_MIN < b <= INT_MAX ->
  Z.abs b <= Z.of_nat fuel ->
  gcd fuel a b = Some (Z.gcd a b).
Proof.
  intros Ha Hb Hfuel. unfold gcd.
  rewrite !int_abs_id by assumption.
  rewrite gcd_loop_spec by lia.
  rewrite Z.gcd_abs_l, Z.gcd_abs_r. reflexivity.
Qed.

Lemma gcd_spec_witness :
  gcd 18 48 18 = Some 6 /\ gcd 18 (-48) 18 = Some 6 /\ gcd 0 0 0 = Some 0.
Proof.
  split; [| split].
  - apply (gcd_spec 18 48 18); unfold INT_MIN, INT_MAX; lia.
  - apply (gcd_spec 18 (-48) 18); unfold INT_MIN, INT_MAX; lia.
  - apply (gcd_spec 0 0 0); unfold INT_MIN, INT_MAX; lia.
Defined.



(** ** The Fibonacci sequence *)

Lemma fibonacci_loop_spec todo : forall i sequence,
  (2 <= i)%nat ->
  sequence = map (fun j => wrap 32 (fibonacci j)) (seq 0 i) ->
  fibonacci_loop todo i sequence
  = Some (map (fun j => wrap 32 (fibonacci j)) (seq 0 (i + todo))).
Proof.
  induction todo as [| todo IH]; intros i sequence Hi Hseq; cbn [fibonacci_loop].
  - rewrite Nat.add_0_r. now subst.
  - assert (Hlook : forall j, (j < i)%nat ->
              sequence !! j = Some (wrap 32 (fibonacci j))).
    { intros j Hj. subst sequence. rewrite list_lookup_fmap.
      rewrite lookup_seq_lt by lia. reflexivity. }
    rewrite (Hlook (i - 1)%nat), (Hlook (i - 2)%nat) by lia. cbn.
    rewrite IH;
      [replace (S i + todo)%nat with (i + S todo)%nat by lia; reflexivity
      | lia |].
    rewrite seq_S, map_app. cbn [map Nat.add]. subst sequence. do 2 f_equal.
    unfold int_add. rewrite wrap_add.
    replace i with (S (S (i - 2))) at 3 by lia.
    rewrite fibonacci_step.
    replace (S (i - 2)) with (i - 1)%nat by lia. reflexivity.
Qed.

(** [MathUtils::fibonacciSequence] returns the empty vector for a length of
    0 or less and otherwise exactly [length] elements, the Fibonacci numbers
    [0, 1, 1, 2, ...] in order, each reduced to a 32-bit [int]; the first 47
    are the Fibonacci numbers themselves, and no subscript leaves the
    vector. *)
Theorem fibonacciSequence_spec length :
  (length <= 0 -> fibonacciSequence length = Some []) /\
  (0 < length ->
     fibonacciSequence length =
       Some (map (fun j => wrap 32 (fibonacci j)) (seq 0 (Z.to_nat length)))) /\
  (forall j, (j < 47)%nat -> wrap 32 (fibonacci j) = fibonacci j).
Proof.
  split; [| split].
  - intros Hle. unfold fibonacciSequence.
    destruct (Z.leb_spec length 0); [reflexivity | lia].
  - intros Hpos. unfold fibonacciSequence.
    destruct (Z.leb_spec length 0); [lia |].
    destruct (Z.leb_spec 1 length); [| lia].
    destruct (Z.leb_spec 2 length) as [Hge | Hlt].
    + rewrite (fibonacci_loop_spec _ 2); [| lia | reflexivity].
      do 3 f_equal. lia.
    + replace length with 1 by lia. reflexivity.
  - intros j Hj. do 47 (destruct j as [| j]; [reflexivity |]). lia.
Qed.

Lemma fibonacciSequence_spec_witness :
  fibonacciSequence 10 = Some [0; 1; 1; 2; 3; 5; 8; 13; 21; 34] /\
  fibonacciSequence (-3) = Some [] /\
  wrap 32 (fibonacci 47) = -1323752223.
Proof.
  destruct (fibonacciSequence_spec 10) as (_ & Hpos & _).
  destruct (fibonacciSequence_spec (-3)) as (Hneg & _ & _).
  split; [| split].
  - rewrite Hpos by lia. reflexivity.
  - apply Hneg. lia.
  - reflexivity.
Defined.

(** ** The history summary *)

Lemma summary_fold op entries : forall summary : gmap OperationType Z,
  0 <= default 0 (summary !! op) ->
  default 0 (summary !! op) + Z.of_nat (count_kind op entries) <= INT_MAX ->
  fold_left
    (fun summary entry =>
       <[operation_ entry :=
           int_add (default 0 (summary !! operation_ entry)) 1]> summary)
    entries summary !! op
  = if decide (count_kind op entries = 0%nat) then summary !! op
    else Some (default 0 (summary !! op) + Z.of_nat (count_kind op entries)).
Proof.
  unfold count_kind.
  induction entries as [| entry entries IH]; intros summary Hlow Hhigh.
  - reflexivity.
  - cbn [fold_left]. revert Hhigh. rewrite !filter_cons.
    destruct (decide (operation_ entry = op)) as [Heq | Hne]; intros Hhigh.
    + rewrite Heq. cbn [length] in *.
      set (d := default 0 (summary !! op)) in *.
      assert (Hd : int_add d 1 = d + 1)
        by (apply int_add_id; unfold INT_MIN, INT_MAX in *; lia).
      rewrite Hd, IH; rewrite lookup_insert_eq; cbn; [| lia | lia].
      destruct (decide (length _ = 0%nat)) as [Hz | _];
        [rewrite Hz |]; f_equal; lia.
    + rewrite IH; rewrite lookup_insert_ne by exact Hne; auto.
Qed.

(** [getHistorySummary] counts the history by kind: the map holds, for a
    kind that occurs, the number of its entries, and has no key for a kind
    that does not occur (up to [INT_MAX] entries, the range of the [int]
    counters). *)
Theorem getHistorySummary_counts this op :
  Z.of_nat (length (history_ this)) <= INT_MAX ->
  getHistorySummary this !! op =
    if decide (count_kind op (history_ this) = 0%nat) then None
    else Some (Z.of_nat (count_kind op (history_ this))).
Proof.
  intros Hlen. unfold getHistorySummary.
  assert (Hcount : (count_kind op (history_ this) <= length (history_ this))%nat).
  { unfold count_kind. apply length_filter. }
  rewrite summary_fold; rewrite lookup_empty; cbn [default]; [| lia | lia].
  destruct (decide _); [reflexivity | f_equal; lia].
Qed.

Lemma getHistorySummary_counts_witness :
  exists this,
    @reachable ref_libm this /\
    getHistorySummary this !! ADD = Some 2 /\
    getHistorySummary this !! SQUARE = Some 1 /\
    getHistorySummary this !! SQRT = None.
Proof.
  set (c0 := AdvancedCalculator "Double Calculator" 4).
  set (c1 := (@add ref_libm c0 10 5 1000).2).
  set (c2 := (@square ref_libm c1 8 1001).2).
  set (c3 := (@add ref_libm c2 1 2 1002).2).
  exists c3. split.
  - apply reach_add, reach_square, reach_add, reach_new.
  - split; [| split].
    + rewrite (getHistorySummary_counts c3 ADD) by (vm_compute; discriminate).
      reflexivity.
    + rewrite (getHistorySummary_counts c3 SQUARE) by (vm_compute; discriminate).
      reflexivity.
    + rewrite (getHistorySummary_counts c3 SQRT) by (vm_compute; discriminate).
      reflexivity.
Defined.

(** ** The average, in both programs *)



(** ** The median *)

Lemma merge_sort_permutation (c1 c2 : list Z) :
  c1 ≡ₚ c2 -> merge_sort Z.le c1 = merge_sort Z.le c2.
Proof.
  intros Hperm. apply (Sorted_unique Z.le).
  - apply Sorted_merge_sort. apply _.
  - apply Sorted_merge_sort. apply _.
  - now rewrite !merge_sort_Permutation.
Qed.

(** [MathUtils::median] on integers throws on the empty container only; its
    answer does not depend on the order of the elements; and for an odd
    number of elements it is one of them. *)
Theorem median_spec (c1 c2 : list Z) :
  (median c1 = Throw "Calculator Error: Cannot calculate median of empty container"
     <-> c1 = []) /\
  (c1 ≡ₚ c2 -> median c1 = median c2) /\
  ((length c1 mod 2 = 1)%nat -> exists v, median c1 = Return v /\ v ∈ c1).
Proof.
  split; [| split].
  - destruct c1 as [| x c1]; [split; reflexivity |].
    split; [| discriminate]. unfold median.
    destruct (_ =? _)%nat; discriminate.
  - intros Hperm. unfold median.
    destruct c1 as [| x c1], c2 as [| y c2].
    + reflexivity.
    + apply Permutation_nil in Hperm. discriminate.
    + symmetry in Hperm. apply Permutation_nil in Hperm. discriminate.
    + now rewrite (merge_sort_permutation _ _ Hperm).
  - intros Hodd. destruct c1 as [| x c1]; [discriminate |].
    unfold median.
    assert (Hlen : length (merge_sort Z.le (x :: c1)) = length (x :: c1))
      by (apply Permutation_length, merge_sort_Permutation).
    rewrite Hlen.
    destruct (Nat.eqb_spec (length (x :: c1) mod 2) 0) as [Heven | _]; [lia |].
    eexists. split; [reflexivity |].
    rewrite <- (merge_sort_Permutation Z.le (x :: c1)) at 3.
    apply list_elem_of_lookup_total_2. rewrite Hlen.
    apply Nat.div_lt; cbn [length]; lia.
Qed.

Lemma median_spec_witness :
  median [1; 3; 2; 5; 4] = Return 3 /\
  median [5; 4; 3; 2; 1] = median [1; 3; 2; 5; 4] /\
  median [4; 1; 3; 2] = Return 2.
Proof.
  destruct (median_spec [5; 4; 3; 2; 1] [1; 3; 2; 5; 4]) as (_ & Hperm & _).
  split; [reflexivity | split; [| reflexivity]].
  apply Hperm.
  change [5; 4; 3; 2; 1] with (reverse [1; 2; 3; 4; 5]).
  rewrite reverse_Permutation.
  change [1; 3; 2; 5; 4] with (1 :: [3; 2] ++ [5; 4]).
  change [1; 2; 3; 4; 5] with (1 :: [2; 3] ++ [4; 5]).
  constructor. apply Permutation_app; apply perm_swap.
Defined.

(** ** What the binary operations of the C++ calculator leave behind *)

(** A call of [operator()] that returns ran one of the five binary kinds
    (for [SQUARE], [SQRT] and [AVERAGE] it throws).  With history enabled it
    appends exactly one entry (kind, both operands, the returned value, the
    time) after the existing ones, with history disabled it leaves the
    history alone, and in both cases name, precision and flag stay; the
    value returned is the same whatever the flag and the clock. *)
Theorem call_operator_history `{Libm} this a b op now v this' :
  call_operator this a b op now = Return (v, this') ->
  (op = ADD \/ op = SUBTRACT \/ op = MULTIPLY \/ op = DIVIDE \/ op = POWER) /\
  history_ this' =
    (if enable_history_ this
     then history_ this ++ [{| operation_ := op; operands_ := [a; b];
                              result_ := v; timestamp_ := now |}]
     else history_ this) /\
  name_ this' = name_ this /\
  precision_ this' = precision_ this /\
  enable_history_ this' = enable_history_ this /\
  (forall flag now',
      exists that,
        call_operator (setHistoryEnabled this flag) a b op now'
          = Return (v, that)).
Proof.
  intros Hcall.
  assert (Hlog : forall res,
            let that := addToHistory this op [a; b] res now in
            history_ that =
              (if enable_history_ this
               then history_ this ++ [{| operation_ := op; operands_ := [a; b];
                                        result_ := res; timestamp_ := now |}]
               else history_ this) /\
            name_ that = name_ this /\ precision_ that = precision_ this /\
            enable_history_ that = enable_history_ this).
  { intros res. unfold addToHistory.
    destruct (enable_history_ this) eqn:Hen; cbn; rewrite ?Hen; auto. }
  destruct op; cbn in Hcall; try discriminate Hcall;
    try (injection Hcall as <- <-;
         split; [tauto |]; split; [apply Hlog |]; split; [apply Hlog |];
         split; [apply Hlog |]; split; [apply Hlog |];
         intros flag now'; eexists; reflexivity).
  unfold divide in *. destruct (b =? 0)%float eqn:Hb; [discriminate Hcall |].
  injection Hcall as <- <-.
  split; [tauto |]. split; [apply Hlog |]. split; [apply Hlog |].
  split; [apply Hlog |]. split; [apply Hlog |].
  intros flag now'. cbn. unfold divide. rewrite Hb. eexists; reflexivity.
Qed.

Lemma call_operator_history_witness :
  exists this',
    @call_operator ref_libm (AdvancedCalculator "Double Calculator" 4)
      6.5 2 MULTIPLY 1000 = Return (13%float, this') /\
    history_ this' =
      [{| operation_ := MULTIPLY; operands_ := [6.5; 2]%float;
          result_ := 13%float; timestamp_ := 1000 |}].
Proof.
  eexists. split; [reflexivity |].
  apply (@call_operator_history ref_libm
           (AdvancedCalculator "Double Calculator" 4) 6.5 2 MULTIPLY 1000
           13 _ eq_refl).
Defined.

(** ** Names of operations *)

(** [getOperationName] gives different kinds different names, and names
    each kind that the C program has exactly as [get_operation_name] does. *)
Theorem getOperationName_spec o1 o2 operation :
  (getOperationName o1 = getOperationName o2 -> o1 = o2) /\
  getOperationName (kind_of_c operation) = C.get_operation_name operation.
Proof.
  split.
  - destruct o1, o2; cbn; intros Heq; first [reflexivity | discriminate Heq].
  - destruct operation; reflexivity.
Qed.

(** ** The two programs compute the same values *)

Lemma rounding_agrees `{Libm} c this v :
  C.precision c = precision_ this ->
  C.round_to_precision v (C.precision c) = roundToPrecision this v.
Proof. intros ->. reflexivity. Qed.

(** At equal precision the C calculator and the C++ calculator return the
    same value for the same operation on the same operands: each successful
    call through [perform_binary_operation] or [perform_unary_operation]
    with one of the seven engine functions stores what the matching C++
    member returns, and where the C function reports a division by zero or
    a negative root, the C++ member throws. *)
Theorem samples_agree `{Libm} c this operation a b r errno now now' ret :
  C.precision c = precision_ this ->
  (C.perform c operation (C.Binary C.calc_add a b) r errno now = Some ret ->
     C.p_code ret = C.CALC_SUCCESS /\
     C.p_result ret = Some (add this a b now').1) /\
  (C.perform c operation (C.Binary C.calc_subtract a b) r errno now = Some ret ->
     C.p_code ret = C.CALC_SUCCESS /\
     C.p_result ret = Some (subtract this a b now').1) /\
  (C.perform c operation (C.Binary C.calc_multiply a b) r errno now = Some ret ->
     C.p_code ret = C.CALC_SUCCESS /\
     C.p_result ret = Some (multiply this a b now').1) /\
  (C.perform c operation (C.Binary C.calc_divide a b) r errno now = Some ret ->
     (C.p_code ret = C.CALC_SUCCESS /\
      exists v this',
        divide this a b now' = Return (v, this') /\ C.p_result ret = Some v) \/
     (C.p_code ret = C.CALC_ERROR_DIVISION_BY_ZERO /\
      divide this a b now' = Throw "Calculator Error: Division by zero")) /\
  (C.perform c operation (C.Binary C.calc_power a b) r errno now = Some ret ->
     C.p_code ret = C.CALC_SUCCESS ->
     C.p_result ret = Some (power this a b now').1) /\
  (C.perform c operation (C.Unary C.calc_square a) r errno now = Some ret ->
     C.p_code ret = C.CALC_SUCCESS /\
     C.p_result ret = Some (square this a now').1) /\
  (C.perform c operation (C.Unary C.calc_sqrt a) r errno now = Some ret ->
     (C.p_code ret = C.CALC_SUCCESS /\
      exists v this',
        sqrt this a now' = Return (v, this') /\ C.p_result ret = Some v) \/
     (C.p_code ret = C.CALC_ERROR_NEGATIVE_ROOT /\
      sqrt this a now' =
        Throw "Calculator Error: Cannot calculate square root of negative number")).
Proof.
  intros Hprec.
  pose proof (fun v => rounding_agrees c this v Hprec) as Hround.
  assert (Hplain : forall k v,
            C.engine_call k r errno =
              {| C.ret_code := C.CALC_SUCCESS; C.ret_result := Some v;
                 C.ret_errno := errno |} ->
            C.perform c operation k r errno now = Some ret ->
            C.p_code ret = C.CALC_SUCCESS /\
            C.p_result ret = Some (roundToPrecision this v)).
  { intros k v Hcall Hp.
    rewrite CProofs.perform_success in Hp by (rewrite Hcall; reflexivity).
    destruct (C.add_to_history _ _ _ _ _ _); [| discriminate Hp].
    injection Hp as <-. cbn [C.p_code C.p_result].
    unfold C.rounded_result. rewrite Hcall.
    split; [reflexivity |]. f_equal. apply Hround. }
  split; [| split; [| split; [| split; [| split; [| split]]]]].
  - apply Hplain. reflexivity.
  - apply Hplain. reflexivity.
  - apply Hplain. reflexivity.
  - intros Hp. unfold divide. destruct (b =? 0)%float eqn:Hb.
    + right. cbn in Hp. rewrite Hb in Hp. cbn in Hp.
      injection Hp as <-. split; reflexivity.
    + left. destruct (Hplain (C.Binary C.calc_divide a b) (a / b)%float)
        as [Hcode Hres]; [cbn; now rewrite Hb | exact Hp |].
      split; [exact Hcode |]. eexists _, _. split; [reflexivity | exact Hres].
  - intros Hp Hcode.
    cbn in Hp. destruct (pow_errno a b errno =? ERANGE); cbn in Hp.
    + injection Hp as <-. discriminate Hcode.
    + destruct (C.add_to_history _ _ _ _ _ _); [| discriminate Hp].
      injection Hp as <-. cbn [C.p_result]. f_equal. apply Hround.
  - apply Hplain. reflexivity.
  - intros Hp. unfold sqrt. destruct (a <? 0)%float eqn:Ha.
    + right. cbn in Hp. rewrite Ha in Hp. cbn in Hp.
      injection Hp as <-. split; reflexivity.
    + left. destruct (Hplain (C.Unary C.calc_sqrt a) (PrimFloat.sqrt a))
        as [Hcode Hres]; [cbn; now rewrite Ha | exact Hp |].
      split; [exact Hcode |]. eexists _, _. split; [reflexivity | exact Hres].
Qed.

Lemma samples_agree_witness :
  exists ret,
    @C.perform ref_libm C.demo_calc C.OP_DIVIDE (C.Binary C.calc_divide 0x1.f333333333333p+3 0x1.999999999999ap+1)
      0 0 1000 = Some ret /\
    C.p_result ret
      = Some (@roundToPrecision ref_libm
                (AdvancedCalculator "Double Calculator" 4) (0x1.f333333333333p+3 / 0x1.999999999999ap+1)).
Proof.
  destruct (@C.perform ref_libm C.demo_calc C.OP_DIVIDE
              (C.Binary C.calc_divide 0x1.f333333333333p+3 0x1.999999999999ap+1) 0 0 1000)
    as [ret |] eqn:Hp; [| discriminate Hp].
  destruct (@samples_agree ref_libm C.demo_calc
              (AdvancedCalculator "Double Calculator" 4)
              C.OP_DIVIDE 0x1.f333333333333p+3 0x1.999999999999ap+1 0 0 1000 2000 ret eq_refl)
    as (_ & _ & _ & Hdiv & _).
  exists ret. split; [reflexivity |].
  destruct (Hdiv Hp) as [(_ & v & this' & Hcpp & Hres) | [Hcode _]].
  - rewrite Hres. injection Hcpp as <- _. reflexivity.
  - vm_compute in Hp. injection Hp as <-. discriminate Hcode.
Defined.

(** ** Primality below the overflow of the candidate square *)

Lemma is_prime_loop_trial fuel : forall n i,
  5 <= i <= LAST_CANDIDATE -> i mod 6 = 5 ->
  n < LAST_CANDIDATE * LAST_CANDIDATE ->
  C.is_prime_loop fuel n i = int_of_bool <$> trial_loop fuel n i /\
  isPrime_loop fuel n i = trial_loop fuel n i.
Proof.
  unfold LAST_CANDIDATE.
  induction fuel as [| fuel IH]; intros n i Hi Hmod Hn; [split; reflexivity |].
  cbn [C.is_prime_loop isPrime_loop trial_loop].
  rewrite int_mul_id by (unfold INT_MIN, INT_MAX; nia).
  rewrite int_add_id by (unfold INT_MIN, INT_MAX; lia).
  destruct (Z.leb_spec (i * i) n) as [Hsq | Hsq]; [| split; reflexivity].
  destruct (_ || _); [split; reflexivity |].
  assert (Hi6 : i = 6 * (i / 6) + 5).
  { pose proof (Z.div_mod i 6 ltac:(lia)). lia. }
  assert (i < 46337) by nia.
  rewrite int_add_id by (unfold INT_MIN, INT_MAX; lia).
  apply IH; [lia | | exact Hn].
  replace (i + 6) with (i + 1 * 6) by lia. rewrite Z_mod_plus_full. exact Hmod.
Qed.

(** Below [46337 * 46337 = 2147117569], where no candidate square leaves
    the range of [int], [is_prime] and [isPrime] decide primality: given
    the 7723 loop rounds the largest such [n] needs, they return 1 and
    [true] for a prime and 0 and [false] for anything else, negative
    numbers, 0 and 1 included. *)
Theorem is_prime_below_overflow fuel n :
  n < LAST_CANDIDATE * LAST_CANDIDATE ->
  7723 <= Z.of_nat fuel ->
  exists b,
    C.is_prime fuel n = Some (int_of_bool b) /\
    isPrime fuel n = Some b /\
    (b = true <-> Z.prime n).
Proof.
  intros Hn Hfuel.
  destruct (trial_division_correct fuel n) as (b & Htrial & Hiff).
  - lia.
  - unfold LAST_CANDIDATE in Hn. nia.
  - exists b. split; [| split; [| exact Hiff]].
    + change (Some (int_of_bool b)) with (int_of_bool <$> Some b).
      rewrite <- Htrial. unfold C.is_prime, trial_division.
      destruct (n <=? 1); [reflexivity |].
      destruct (n <=? 3); [reflexivity |].
      destruct (_ || _); [reflexivity |].
      apply is_prime_loop_trial;
        [unfold LAST_CANDIDATE; lia | reflexivity | exact Hn].
    + rewrite <- Htrial. unfold isPrime, trial_division.
      destruct (n <=? 1); [reflexivity |].
      destruct (n <=? 3); [reflexivity |].
      destruct (_ || _); [reflexivity |].
      apply is_prime_loop_trial;
        [unfold LAST_CANDIDATE; lia | reflexivity | exact Hn].
Qed.

Lemma is_prime_below_overflow_witness :
  C.is_prime (Z.to_nat 7723) 17 = Some 1 /\
  isPrime (Z.to_nat 7723) 17 = Some true /\
  Z.prime 17 /\
  C.is_prime (Z.to_nat 7723) 2147117567 = Some 0.
Proof.
  destruct (is_prime_below_overflow (Z.to_nat 7723) 17)
    as (b & Hc & Hcpp & Hiff);
    [reflexivity | rewrite Z2Nat.id; lia |].
  assert (Hb : b = true).
  { vm_compute in Hcpp. now injection Hcpp as <-. }
  subst b. split; [exact Hc | split; [exact Hcpp | split]].
  - now apply Hiff.
  - vm_compute. reflexivity.
Defined.

End CppProofs.
